(** * pggateway: the per-connection session proxy engine

    A shallow embedding of [Session] (session.go, the second half of
    src/config.go) and of the collaborators it talks to, followed by the
    properties of the handshake, of the two forwarding directions and of
    the shutdown protocol. *)

From Stdlib Require Import Strings.String Strings.Byte ZArith Lia List.
From stdpp Require Import base option list gmap strings.

Local Open Scope string_scope.
Local Open Scope list_scope.

(** ** Go values *)

(** [[]byte]; the nil slice and the empty slice are both []. *)
Definition bytes := list byte.

(** [[]byte("...")] and [string(b)]. *)
Definition bytes_of_string (s : string) : bytes := list_byte_of_string s.
Definition string_of_bytes (b : bytes) : string := string_of_list_byte b.

(** The [error] values the session distinguishes: the sentinel [io.EOF],
    which the code compares against with [==], and every other error,
    identified by its text ([fmt.Errorf], socket errors, codec errors). *)
Inductive goerror :=
| EOF
| ErrorString (text : string).

(** ** net.Conn

    A connection as the session sees it through the codec: the frames still
    to be decoded from it, the outcomes the next writes will have (a write
    past the end of [wfail] succeeds), and every write attempted so far,
    oldest first, each with the batch handed over and its outcome. *)
Module net.

Record Conn (R W : Type) := mkConn {
  RemoteAddr : string;
  incoming : list R;
  wfail : list (option goerror);
  written : list (list W * option goerror)
}.
Arguments mkConn {R W}.
Arguments RemoteAddr {R W}.
Arguments incoming {R W}.
Arguments wfail {R W}.
Arguments written {R W}.

(** One [Write] call on the connection. *)
Definition write {R W} (batch : list W) (c : Conn R W) : option goerror * Conn R W :=
  match wfail c with
  | [] => (None, mkConn (RemoteAddr c) (incoming c) [] (written c ++ [(batch, None)]))
  | o :: rest => (o, mkConn (RemoteAddr c) (incoming c) rest (written c ++ [(batch, o)]))
  end.

End net.

(** ** The message codec (package pgproto) *)
Module pgproto.

Definition AuthenticationMethod := Z.

(** Modelled from the spec: the codec's constant for the method that
    signals a successful authentication (the protocol's code 0); the
    package is not part of the sources. *)
Definition AuthenticationMethodOK : AuthenticationMethod := 0%Z.

(** Modelled from the spec: the closed set of message variants of the
    codec, whose declarations are not part of the sources. The variants
    the session inspects carry the fields it reads; every other variant
    is a tag with a body. *)
Inductive ClientMessage :=
| StartupMessage (SSLRequest : bool) (Options : gmap string bytes)
| PasswordMessage (Password : bytes)
| Termination
| ClientOther (tag : byte) (body : bytes).

Inductive ServerMessage :=
| AuthenticationRequest (Method : AuthenticationMethod) (Salt : bytes)
| ReadyForQuery
| Error (Severity : bytes) (Message : bytes)
| ServerOther (tag : byte) (body : bytes).

(** The [Message] interface, as far as logging needs it. *)
Inductive Message :=
| OfClient (m : ClientMessage)
| OfServer (m : ServerMessage).

(** Modelled from the spec: the result of decoding one frame is a
    message, or an error (end-of-stream included) next to whatever was
    decoded before the failure; that is the [(msg, err)] pair of
    [ParseClientMessage] and [ParseServerMessage]. *)
Inductive ParseResult (M : Type) :=
| Parsed (m : M)
| Failed (partial : option M) (e : goerror).
Arguments Parsed {M}.
Arguments Failed {M}.

Definition ClientConn := net.Conn (ParseResult ClientMessage) ServerMessage.
Definition TargetConn := net.Conn (ParseResult ServerMessage) ClientMessage.

(** Decoding the next frame; a stream with nothing left is at its end. *)
Definition parse {M W} (c : net.Conn (ParseResult M) W)
  : ParseResult M * net.Conn (ParseResult M) W :=
  match net.incoming c with
  | [] => (Failed None EOF, c)
  | r :: rest =>
      (r, net.mkConn (net.RemoteAddr c) rest (net.wfail c) (net.written c))
  end.

Definition ParseClientMessage (c : ClientConn) := parse c.
Definition ParseServerMessage (c : TargetConn) := parse c.

(** [WriteMessage] returns [(n, err)]; every caller drops [n]. *)
Definition WriteMessage {R W} (msg : W) (c : net.Conn R W) := net.write [msg] c.
Definition WriteMessages {R W} (buf : list W) (c : net.Conn R W) := net.write buf c.

End pgproto.

Import pgproto.

(** ** Logging (loggingContext, PluginRegistry.LogDebug / LogError) *)

Record LoggingContext := mkContext {
  ctx_session_id : string;
  ctx_user : string;
  ctx_database : string;
  ctx_ssl : bool;
  ctx_client : string;
  ctx_target : string;
  ctx_message : option Message
}.

Inductive LogLevel := DebugLevel | ErrorLevel.

Record LogEvent := mkEvent {
  ev_level : LogLevel;
  ev_context : LoggingContext;
  ev_format : string;
  ev_args : list goerror
}.

(** ** Session *)

Record Session := mkSession {
  ID : string;
  User : bytes;
  Database : bytes;
  IsSSL : bool;
  salt : bytes;
  password : bytes;
  startup : option ClientMessage;
  stopped : bool
}.

Definition set_User (u : bytes) (s : Session) : Session :=
  mkSession (ID s) u (Database s) (IsSSL s) (salt s) (password s) (startup s) (stopped s).
Definition set_Database (d : bytes) (s : Session) : Session :=
  mkSession (ID s) (User s) d (IsSSL s) (salt s) (password s) (startup s) (stopped s).
Definition set_password (p : bytes) (s : Session) : Session :=
  mkSession (ID s) (User s) (Database s) (IsSSL s) (salt s) p (startup s) (stopped s).
Definition set_stopped (b : bool) (s : Session) : Session :=
  mkSession (ID s) (User s) (Database s) (IsSSL s) (salt s) (password s) (startup s) b.

(** What a session's methods act on besides the session itself: its two
    connections and the log of the plugin registry. *)
Record World := mkWorld {
  client : ClientConn;
  target : TargetConn;
  log : list LogEvent
}.

Definition set_client (c : ClientConn) (w : World) : World := mkWorld c (target w) (log w).
Definition set_target (c : TargetConn) (w : World) : World := mkWorld (client w) c (log w).

(** Modelled from the spec: the registry's two logging calls are
    fire-and-forget; each reports one event. *)
Definition LogDebug (ctx : LoggingContext) (format : string) (w : World) : World :=
  mkWorld (client w) (target w) (log w ++ [mkEvent DebugLevel ctx format []]).
Definition LogError (ctx : LoggingContext) (format : string) (e : goerror) (w : World) : World :=
  mkWorld (client w) (target w) (log w ++ [mkEvent ErrorLevel ctx format [e]]).

Definition loggingContextWithMessage (s : Session) (w : World) (msg : option Message)
  : LoggingContext :=
  mkContext (ID s) (string_of_bytes (User s)) (string_of_bytes (Database s)) (IsSSL s)
            (net.RemoteAddr (client w)) (net.RemoteAddr (target w)) msg.

Definition loggingContext (s : Session) (w : World) : LoggingContext :=
  loggingContextWithMessage s w None.

Definition WriteToServer (msg : ClientMessage) (w : World) : option goerror * World :=
  let '(err, c) := WriteMessage msg (target w) in (err, set_target c w).

Definition WriteToClient (msg : ServerMessage) (w : World) : option goerror * World :=
  let '(err, c) := WriteMessage msg (client w) in (err, set_client c w).

Definition ParseClientRequest (s : Session) (w : World)
  : ParseResult ClientMessage * World :=
  let '(r, c) := ParseClientMessage (client w) in
  let w := set_client c w in
  match r with
  | Failed _ EOF => (r, w)
  | Failed pm err =>
      if negb (stopped s)
      then (r, LogError (loggingContextWithMessage s w (OfClient <$> pm))
                        "error parsing client request: %s" err w)
      else (r, w)
  | Parsed m =>
      (r, LogDebug (loggingContextWithMessage s w (Some (OfClient m))) "client request" w)
  end.

Definition ParseServerResponse (s : Session) (w : World)
  : ParseResult ServerMessage * World :=
  let '(r, c) := ParseServerMessage (target w) in
  let w := set_target c w in
  match r with
  | Failed _ EOF => (r, w)
  | Failed pm err =>
      if negb (stopped s)
      then (r, LogError (loggingContextWithMessage s w (OfServer <$> pm))
                        "error parsing server response: %#v" err w)
      else (r, w)
  | Parsed m =>
      (r, LogDebug (loggingContextWithMessage s w (Some (OfServer m))) "server response" w)
  end.

(** ** String *)

Section Fmt.

(** The verb [%#v] of package fmt at a string (Go-syntax quoting), which
    belongs to the Go standard library. *)
Variable fmt_sharp_v : string -> string.

Definition String (s : Session) : string :=
  "Session<ID=" ++ fmt_sharp_v (ID s)
    ++ ", User=" ++ fmt_sharp_v (string_of_bytes (User s))
    ++ ", Database=" ++ fmt_sharp_v (string_of_bytes (Database s)) ++ ">".

End Fmt.

(** ** The handshake *)

(** What a call hands back: the values of a successful return or the
    error. *)
Inductive result (A : Type) :=
| Ok (a : A)
| Err (e : goerror).
Arguments Ok {A}.
Arguments Err {A}.

Definition GetUserPassword (method : AuthenticationMethod) (s : Session) (w : World)
  : result (ServerMessage * ClientMessage) * Session * World :=
  let auth := AuthenticationRequest method (salt s) in
  let '(err, w) := WriteToClient auth w in
  match err with
  | Some e => (Err e, s, w)
  | None =>
      let '(r, w) := ParseClientRequest s w in
      match r with
      | Failed _ e => (Err e, s, w)
      | Parsed (PasswordMessage pwd) =>
          (Ok (auth, PasswordMessage pwd), set_password pwd s, w)
      | Parsed _ => (Err (ErrorString "expected password message"), s, w)
      end
  end.

(** [v, ok = m[key]] at a map of byte slices: the zero value is the nil
    slice. *)
Definition comma_ok (m : gmap string bytes) (key : string) : bytes * bool :=
  match m !! key with
  | Some v => (v, true)
  | None => ([], false)
  end.

Definition parseStartupMessage (s : Session) (w : World)
  : result ClientMessage * Session * World :=
  let '(r, w) := ParseClientRequest s w in
  match r with
  | Failed _ e => (Err e, s, w)
  | Parsed (StartupMessage ssl opts) =>
      if ssl then (Ok (StartupMessage ssl opts), s, w)
      else
        let '(u, ok) := comma_ok opts "user" in
        let s := set_User u s in
        if negb ok then (Err (ErrorString "no username sent with startup message"), s, w)
        else
          let '(d, ok) := comma_ok opts "database" in
          let s := set_Database d s in
          if negb ok
          then (Err (ErrorString "no database name sent with startup message"), s, w)
          else (Ok (StartupMessage ssl opts), s, w)
  | Parsed _ => (Err (ErrorString "unexpected message type"), s, w)
  end.

(** ** Go slices of errors

    A slice value is a header (backing array, length, capacity); passing a
    slice to a function or to a [go] statement copies the header, and
    [x = append(x, e)] assigns the header that [append] returns to the
    variable [x] of the function that executes it. Backing arrays live in a
    store shared by all goroutines, addressed by position. *)
Module slice.

Record header := mk { ptr : nat; len : nat; cap : nat }.

Definition store := list (list (option goerror)).

(** [make([]error, 0)] *)
Definition make0 (h : store) : header * store :=
  (mk (length h) 0 0, h ++ [[]]).

(** [append(s, e)]: in place while the capacity lasts, otherwise into a
    fresh array of (at least) doubled capacity. *)
Definition append (s : header) (e : goerror) (h : store) : header * store :=
  if (len s <? cap s)%nat
  then (mk (ptr s) (S (len s)) (cap s),
        alter (fun a => <[len s := Some e]> a) (ptr s) h)
  else
    let old := take (len s) (default [] (h !! ptr s)) in
    let newcap := Nat.max (2 * cap s) (S (len s)) in
    (mk (length h) (S (len s)) newcap,
     h ++ [old ++ Some e :: replicate (newcap - S (len s)) None]).

(** [s[i]] for [i < len(s)]; out of range the program panics ([None]). *)
Definition index (s : header) (i : nat) (h : store) : option (option goerror) :=
  if (i <? len s)%nat then (h !! ptr s) ≫= (fun a => a !! i) else None.

End slice.

(** ** The forwarding loop

    [proxy] starts the two directions as goroutines and waits on a
    condition variable. The three threads are interleaved by a schedule.
    A direction is at the head of its loop (about to test [!s.stopped]),
    inside its blocking parse, or finished; the controlling call is about
    to wait, waiting, woken by a [Broadcast], or has returned. *)

Inductive thread := Controller | ClientDirection | ServerDirection.

Inductive loop_pc := AtHead | InParse | Finished.

Inductive ctl_pc :=
| BeforeWait
| Waiting
| Woken
| Returned (err : option goerror).

Record Proxy := mkProxy {
  sess : Session;
  world : World;
  errors : slice.store;
  (* proxy *)
  k_pc : ctl_pc;
  k_errs : slice.header;
  (* proxyClientMessages *)
  c_pc : loop_pc;
  c_errs : slice.header;
  (* proxyServerMessages *)
  s_pc : loop_pc;
  s_errs : slice.header;
  s_buf : list ServerMessage
}.

(** [stop.Broadcast()]: wakes the controlling call if it is waiting, and is
    lost otherwise. *)
Definition Broadcast (k : ctl_pc) : ctl_pc :=
  match k with
  | Waiting => Woken
  | other => other
  end.

(** The type switch of proxyServerMessages. *)
Definition flush_needed (msg : ServerMessage) : bool :=
  match msg with
  | ReadyForQuery => true
  | AuthenticationRequest m _ => negb (m =? AuthenticationMethodOK)%Z
  | _ => false
  end.

(** The body of the response loop after a successful parse: append, decide,
    write the batch and drop the buffer. The result of the write is not
    looked at. *)
Definition buffer_message (msg : ServerMessage) (buf : list ServerMessage) (w : World)
  : list ServerMessage * World :=
  let buf := buf ++ [msg] in
  let flush := flush_needed msg in
  if flush || (15 <? length buf)%nat
  then let '(_, c) := WriteMessages buf (client w) in ([], set_client c w)
  else (buf, w).

(** After the response loop: what is still buffered is written. *)
Definition flush_rest (buf : list ServerMessage) (w : World) : World :=
  if (0 <? length buf)%nat
  then let '(_, c) := WriteMessages buf (client w) in set_client c w
  else w.

Definition proxyServerMessages (st : Proxy) : Proxy :=
  match s_pc st with
  | AtHead =>
      if stopped (sess st)
      then mkProxy (sess st) (flush_rest (s_buf st) (world st)) (errors st)
                   (k_pc st) (k_errs st) (c_pc st) (c_errs st)
                   Finished (s_errs st) (s_buf st)
      else mkProxy (sess st) (world st) (errors st)
                   (k_pc st) (k_errs st) (c_pc st) (c_errs st)
                   InParse (s_errs st) (s_buf st)
  | InParse =>
      let '(r, w) := ParseServerResponse (sess st) (world st) in
      match r with
      | Failed _ err =>
          let '(errs, h) := slice.append (s_errs st) err (errors st) in
          mkProxy (sess st) (flush_rest (s_buf st) w) h
                  (Broadcast (k_pc st)) (k_errs st) (c_pc st) (c_errs st)
                  Finished errs (s_buf st)
      | Parsed msg =>
          let '(buf, w) := buffer_message msg (s_buf st) w in
          mkProxy (sess st) w (errors st)
                  (k_pc st) (k_errs st) (c_pc st) (c_errs st)
                  AtHead (s_errs st) buf
      end
  | Finished => st
  end.

Definition is_Termination (msg : ClientMessage) : bool :=
  match msg with Termination => true | _ => false end.

Definition proxyClientMessages (st : Proxy) : Proxy :=
  match c_pc st with
  | AtHead =>
      mkProxy (sess st) (world st) (errors st)
              (k_pc st) (k_errs st)
              (if stopped (sess st) then Finished else InParse) (c_errs st)
              (s_pc st) (s_errs st) (s_buf st)
  | InParse =>
      let '(r, w) := ParseClientRequest (sess st) (world st) in
      match r with
      | Failed _ err =>
          let '(errs, h) := slice.append (c_errs st) err (errors st) in
          mkProxy (sess st) w h
                  (Broadcast (k_pc st)) (k_errs st) Finished errs
                  (s_pc st) (s_errs st) (s_buf st)
      | Parsed msg =>
          let '(_, w) := WriteToServer msg w in
          mkProxy (sess st) w (errors st)
                  (k_pc st) (k_errs st)
                  (if is_Termination msg then Finished else AtHead) (c_errs st)
                  (s_pc st) (s_errs st) (s_buf st)
      end
  | Finished => st
  end.

(** The controlling call from [stop.L.Lock()] on. *)
Definition proxy_wait (st : Proxy) : Proxy :=
  match k_pc st with
  | BeforeWait =>
      mkProxy (sess st) (world st) (errors st)
              Waiting (k_errs st) (c_pc st) (c_errs st)
              (s_pc st) (s_errs st) (s_buf st)
  | Waiting => st
  | Woken =>
      let ret :=
        if (0 <? slice.len (k_errs st))%nat
        then default None (slice.index (k_errs st) 0 (errors st))
        else None in
      mkProxy (set_stopped true (sess st)) (world st) (errors st)
              (Returned ret) (k_errs st) (c_pc st) (c_errs st)
              (s_pc st) (s_errs st) (s_buf st)
  | Returned _ => st
  end.

Definition step (t : thread) (st : Proxy) : Proxy :=
  match t with
  | Controller => proxy_wait st
  | ClientDirection => proxyClientMessages st
  | ServerDirection => proxyServerMessages st
  end.

Definition run (sched : list thread) (st : Proxy) : Proxy :=
  fold_left (fun st t => step t st) sched st.

(** [proxy] up to and including the two [go] statements: the slice is
    made, and each goroutine receives a copy of its header. *)
Definition proxy_start (s : Session) (w : World) : Proxy :=
  let '(errs, h) := slice.make0 [] in
  mkProxy s w h BeforeWait errs AtHead errs AtHead errs [].

(** What the caller of a blocking call sees when the schedule is used up:
    the call has returned, or it is still blocked. *)
Inductive Outcome :=
| Returns (err : option goerror) (s : Session) (w : World)
| Blocks (s : Session) (w : World).

Definition proxy (sched : list thread) (s : Session) (w : World) : Outcome :=
  let st := run sched (proxy_start s w) in
  match k_pc st with
  | Returned err => Returns err (sess st) (world st)
  | _ => Blocks (sess st) (world st)
  end.

Section Plugins.

(** [PluginRegistry.Authenticate(s, s.startup)]: the authenticators are
    plugins; they receive the session and may talk to the client. *)
Variable Authenticate :
  Session -> option ClientMessage -> World -> bool * option goerror * Session * World.

Definition Handle (sched : list thread) (s : Session) (w : World) : Outcome :=
  let '(success, err, s, w) := Authenticate s (startup s) w in
  match err with
  | Some e => Returns (Some e) s w
  | None =>
      if negb success
      then
        let errMsg := Error (bytes_of_string "Fatal")
                            (bytes_of_string "failed to authenticate") in
        let '(_, w) := WriteToClient errMsg w in
        Returns None s w
      else proxy sched s w
  end.

End Plugins.

(** ** Forgetting the outcomes of writes

    The same connection with every write, past and future, successful. *)
Definition reliable {R W} (c : net.Conn R W) : net.Conn R W :=
  net.mkConn (net.RemoteAddr c) (net.incoming c) []
             (map (fun b => (fst b, None)) (net.written c)).

Definition reliable_world (w : World) : World :=
  mkWorld (reliable (client w)) (reliable (target w)) (log w).

Definition reliable_proxy (st : Proxy) : Proxy :=
  mkProxy (sess st) (reliable_world (world st)) (errors st)
          (k_pc st) (k_errs st) (c_pc st) (c_errs st)
          (s_pc st) (s_errs st) (s_buf st).

(** The batches handed to a connection, without their outcomes. *)
Definition batches {R W} (c : net.Conn R W) : list (list W) :=
  map fst (net.written c).

(** ** The flush policy as a function of the messages processed *)

(** The two kinds of message after which the client must hear from the
    backend at once. *)
Definition synchronizing (msg : ServerMessage) : Prop :=
  msg = ReadyForQuery
  \/ exists method salt,
       msg = AuthenticationRequest method salt /\ method <> AuthenticationMethodOK.

(** The buffer and the batches written so far, after one more message. *)
Definition feed (acc : list ServerMessage * list (list ServerMessage))
                (msg : ServerMessage)
  : list ServerMessage * list (list ServerMessage) :=
  let buf := fst acc ++ [msg] in
  if flush_needed msg || (15 <? length buf)%nat
  then ([], snd acc ++ [buf])
  else (buf, snd acc).

Definition fed (msgs : list ServerMessage)
  : list ServerMessage * list (list ServerMessage) :=
  fold_left feed msgs ([], []).

(** The batch written when the direction ends. *)
Definition closing (buf : list ServerMessage) : list (list ServerMessage) :=
  if (0 <? length buf)%nat then [buf] else [].

(** The response direction has processed the messages [done] of the
    backend's stream as the policy prescribes: started in world [w0], it
    has the policy's buffer and has written the policy's batches, and once
    it is finished it has also written the closing batch, having stopped in
    front of the rest of the stream or on a failed frame at its head. *)
Definition follows (w0 : World) (st : Proxy) : Prop :=
  exists done rest,
    net.incoming (target w0) = map Parsed done ++ rest
    /\ match s_pc st with
       | Finished =>
           (net.incoming (target (world st)) = rest
            \/ exists pm e, rest = Failed pm e :: net.incoming (target (world st)))
           /\ batches (client (world st))
              = batches (client w0) ++ snd (fed done) ++ closing (fst (fed done))
       | _ =>
           net.incoming (target (world st)) = rest
           /\ s_buf st = fst (fed done)
           /\ batches (client (world st)) = batches (client w0) ++ snd (fed done)
       end.

(** ** Sample sessions and connections *)
Module Sample.

Definition alice : Session :=
  mkSession "6ba7b810-9dad-11d1-80b4-00c04fd430c8"
            (bytes_of_string "alice") (bytes_of_string "app") false
            (bytes_of_string "Zx3q") [] None false.

Definition fresh : Session :=
  mkSession "6ba7b810-9dad-11d1-80b4-00c04fd430c8" [] [] false
            (bytes_of_string "Zx3q") [] None false.

Definition client_of (frames : list (ParseResult ClientMessage))
                     (outcomes : list (option goerror)) : ClientConn :=
  net.mkConn "192.0.2.10:51234" frames outcomes [].

Definition target_of (frames : list (ParseResult ServerMessage))
                     (outcomes : list (option goerror)) : TargetConn :=
  net.mkConn "192.0.2.20:5432" frames outcomes [].

Definition idle : World := mkWorld (client_of [] []) (target_of [] []) [].

Definition row (n : nat) : ServerMessage :=
  ServerOther "D"%byte (bytes_of_string "row").

(** The backend sends [n] data rows and closes. *)
Definition rows (n : nat) : World :=
  mkWorld (client_of [] []) (target_of (map (fun i => Parsed (row i)) (seq 0 n)) []) [].

(** The backend answers a query with three rows and is ready again. *)
Definition query_result : World :=
  mkWorld (client_of [] [])
          (target_of [Parsed (row 0); Parsed (row 1); Parsed (row 2);
                      Parsed ReadyForQuery] []) [].

(** The backend asks for an MD5 password (method 5) while two messages
    are buffered. *)
Definition challenge : World :=
  mkWorld (client_of [] [])
          (target_of [Parsed (row 0); Parsed (row 1);
                      Parsed (AuthenticationRequest 5%Z (bytes_of_string "Zx3q"))] []) [].

Definition reset : goerror := ErrorString "read: connection reset by peer".
Definition broken_pipe : goerror := ErrorString "write: broken pipe".

(** The backend connection is reset before anything is read from it. *)
Definition backend_reset : World :=
  mkWorld (client_of [] []) (target_of [Failed None reset] []) [].

Definition query : ClientMessage :=
  ClientOther "Q"%byte (bytes_of_string "select 1").

(** The client sends a query and then another, but the write to the
    backend fails. *)
Definition backend_unwritable : World :=
  mkWorld (client_of [Parsed query; Parsed query] [])
          (target_of [] [Some broken_pipe]) [].

(** The backend answers with three rows and is ready again, but the
    write to the client fails. *)
Definition query_result_unwritable : World :=
  mkWorld (client_of [] [Some broken_pipe])
          (target_of [Parsed (row 0); Parsed (row 1); Parsed (row 2);
                      Parsed ReadyForQuery; Parsed (row 3)] []) [].

Definition secret : bytes := bytes_of_string "md5c4ca4238a0b923820dcc509a6f75849b".

(** The client has sent its password, but writing to it fails. *)
Definition client_unwritable : World :=
  mkWorld (client_of [Parsed (PasswordMessage secret)] [Some broken_pipe])
          (target_of [] []) [].

Definition client_sends (frames : list (ParseResult ClientMessage)) : World :=
  mkWorld (client_of frames []) (target_of [] []) [].

Definition options : gmap string bytes :=
  <["user" := bytes_of_string "alice"]>
    (<["database" := bytes_of_string "app"]> ∅).

(** An authenticator that turns everybody away, and one that cannot reach
    its credential store. *)
Definition reject (s : Session) (m : option ClientMessage) (w : World)
  : bool * option goerror * Session * World := (false, None, s, w).

Definition accept (s : Session) (m : option ClientMessage) (w : World)
  : bool * option goerror * Session * World := (true, None, s, w).

Definition unreachable (s : Session) (m : option ClientMessage) (w : World)
  : bool * option goerror * Session * World :=
  (false, Some (ErrorString "dial tcp: connection refused"), s, w).

End Sample.

(** * Further definitions *)

(** ** Observers of a run of the forwarding loop *)

(** The session without its two secrets. *)
Definition redact (s : Session) : Session :=
  mkSession (ID s) (User s) (Database s) (IsSSL s) [] [] (startup s) (stopped s).

Definition redact_proxy (st : Proxy) : Proxy :=
  mkProxy (redact (sess st)) (world st) (errors st)
          (k_pc st) (k_errs st) (c_pc st) (c_errs st)
          (s_pc st) (s_errs st) (s_buf st).

Definition is_client_step (t : thread) : bool :=
  match t with ClientDirection => true | _ => false end.

Definition is_server_step (t : thread) : bool :=
  match t with ServerDirection => true | _ => false end.

(** How often a schedule lets a thread run. *)
Definition steps_of (p : thread -> bool) (sched : list thread) : nat :=
  length (List.filter p sched).

(** The steps the response direction and the request direction still need
    at most before they are finished: two for every frame left on their
    stream and for the end of the stream, less one inside a parse. *)
Definition server_bound (st : Proxy) : nat :=
  match s_pc st with
  | AtHead => 2 * length (net.incoming (target (world st))) + 2
  | InParse => 2 * length (net.incoming (target (world st))) + 1
  | Finished => 0
  end.

Definition client_bound (st : Proxy) : nat :=
  match c_pc st with
  | AtHead => 2 * length (net.incoming (client (world st))) + 2
  | InParse => 2 * length (net.incoming (client (world st))) + 1
  | Finished => 0
  end.


(** * Configuration (config.go) *)

(** A value behind [interface{}] as the YAML decoder builds it. A
    [map[interface{}]interface{}] is given by its entries in the order in
    which a [range] statement visits them; the keys of a Go map are
    pairwise distinct. *)
#[local] Set Warnings "-register-all".
Inductive value :=
| VNil
| VBool (b : bool)
| VInt (n : Z)
| VFloat (bits : Z)
| VString (s : string)
| VSeq (items : list value)
| VMap (entries : list (value * value)).

(** [type ConfigMap map[string]interface{}]; the nil map reads like the
    empty one. *)
Module ConfigMap.

Definition String (c : gmap string value) (name : string) : string * bool :=
  match c !! name with
  | None => (EmptyString, false)
  | Some v =>
      match v with
      | VString s => (s, true)
      | _ => (EmptyString, false)
      end
  end.

Definition StringDefault (c : gmap string value) (name : string) (d : string) : string :=
  let '(s, ok) := String c name in
  if negb ok then d else s.

Definition Bool (c : gmap string value) (name : string) : bool * bool :=
  match c !! name with
  | None => (false, false)
  | Some v =>
      match v with
      | VBool b => (b, true)
      | _ => (false, false)
      end
  end.

Definition BoolDefault (c : gmap string value) (name : string) (d : bool) : bool :=
  let '(b, ok) := Bool c name in
  if negb ok then d else b.

(** The loop of [Map]: the entries still to visit and the map built so
    far. *)
Fixpoint Map_range (entries : list (value * value)) (m : gmap string value)
  : gmap string value * bool :=
  match entries with
  | [] => (m, true)
  | (k, v) :: entries =>
      match k with
      | VString key => Map_range entries (<[key := v]> m)
      | _ => (∅, false)
      end
  end.

Definition Map (c : gmap string value) (name : string) : gmap string value * bool :=
  match c !! name with
  | None => (∅, false)
  | Some raw =>
      match raw with
      | VMap entries => Map_range entries ∅
      | _ => (∅, false)
      end
  end.

End ConfigMap.

Record TargetConfig := mkTargetConfig {
  Host : string;
  Port : Z;
  SSLMode : string
}.

Record SSLConfig := mkSSLConfig {
  Enabled : bool;
  Required : bool;
  Certificate : string;
  Key : string
}.

Module ListenerConfig.

Record t := mk {
  Bind : string;
  SSL : SSLConfig;
  Target : TargetConfig;
  Authentication : gmap string (gmap string value);
  Logging : gmap string (gmap string value);
  Databases : gmap string (gmap string value)
}.

Definition set_Bind (bind : string) (c : t) : t :=
  mk bind (SSL c) (Target c) (Authentication c) (Logging c) (Databases c).

End ListenerConfig.

Module Config.

(** [Listeners] maps a bind address to a [*ListenerConfig]: the address
    of a configuration in the store, or nil. *)
Record t := mk {
  Procs : Z;
  Logging : gmap string (gmap string value);
  Listeners : gmap string (option nat)
}.

(** The loop of [resolveListeners] over the entries in the order in which
    they are visited; [config.Bind = bind] through a nil pointer panics
    ([None]). *)
Fixpoint resolveListeners_range (visits : list (string * option nat))
    (h : gmap nat ListenerConfig.t) : option (gmap nat ListenerConfig.t) :=
  match visits with
  | [] => Some h
  | (bind, config) :: visits =>
      match config with
      | None => None
      | Some p =>
          match h !! p with
          | None => None
          | Some cfg =>
              resolveListeners_range visits (<[p := ListenerConfig.set_Bind bind cfg]> h)
          end
      end
  end.

(** [resolveListeners] returns nil whenever it returns. *)
Definition resolveListeners (c : t) (h : gmap nat ListenerConfig.t)
  : option (option goerror * gmap nat ListenerConfig.t) :=
  match resolveListeners_range (map_to_list (Listeners c)) h with
  | None => None
  | Some h => Some (None, h)
  end.

End Config.

(** ** More sample inputs *)
Module Fixture.

(** The client closes before anything is read and the backend is idle. *)
Definition both_closed : World := Sample.idle.

(** The client sends a query, says goodbye and sends one more query. *)
Definition goodbye : World :=
  Sample.client_sends [Parsed Sample.query; Parsed Termination; Parsed Sample.query].

(** The client answers a password request. *)
Definition answers_password : World :=
  Sample.client_sends [Parsed (PasswordMessage Sample.secret)].

Definition local_target : TargetConfig := mkTargetConfig "127.0.0.1" 5432 "disable".
Definition no_ssl : SSLConfig := mkSSLConfig false false EmptyString EmptyString.

Definition listener : ListenerConfig.t :=
  ListenerConfig.mk EmptyString no_ssl local_target ∅ ∅ ∅.

(** Two listeners, each with a configuration of its own. *)
Definition two_listeners : Config.t :=
  Config.mk 0 ∅ (<["0.0.0.0:5432" := Some 0]> (<["0.0.0.0:5433" := Some 1]> ∅)).

Definition two_configs : gmap nat ListenerConfig.t :=
  <[0 := listener]> (<[1 := listener]> ∅).

(** A listener whose entry is null. *)
Definition null_listener : Config.t :=
  Config.mk 0 ∅ (<["0.0.0.0:5432" := None]> ∅).

(** [{file: {path: /var/log/pg.log, verbose: true}, level: debug}] *)
Definition logging : gmap string value :=
  <["file" := VMap [(VString "path", VString "/var/log/pg.log");
                    (VString "verbose", VBool true)]]>
    (<["level" := VString "debug"]> ∅).

End Fixture.

(** * Properties *)

(** ** Identity string *)

(** C10: [String()] is the same for two sessions that differ only in their
    password and salt; neither field enters the output. *)
Theorem String_ignores_password_and_salt
    (fmt : string -> string) (id : string) (user database : bytes) (ssl : bool)
    (st : option ClientMessage) (stop : bool) (salt1 pw1 salt2 pw2 : bytes) :
  String fmt (mkSession id user database ssl salt1 pw1 st stop)
  = String fmt (mkSession id user database ssl salt2 pw2 st stop).
Proof. reflexivity. Qed.

(** ** Logging of parses *)

(** C6: every parse of a client request or of a server response takes the
    next frame of its stream (an exhausted stream gives end-of-stream),
    returns what the codec decoded and reports through the registry: a
    frame that decodes reports exactly one debug event; one that fails with
    an error other than end-of-stream reports exactly one error event,
    unless the session is already stopped, in which case it reports
    nothing; end-of-stream reports nothing, so it is never logged as an
    error. Nothing else is logged and the other connection is not
    touched. *)
Theorem parse_reports_one_event (s : Session) (w : World) :
  (let '(r, w') := ParseClientRequest s w in
   r = default (Failed None EOF) (head (net.incoming (client w)))
   /\ net.incoming (client w') = tail (net.incoming (client w))
   /\ net.written (client w') = net.written (client w)
   /\ target w' = target w
   /\ log w' = log w ++
        match head (net.incoming (client w)) with
        | Some (Parsed m) =>
            [mkEvent DebugLevel (loggingContextWithMessage s w (Some (OfClient m)))
                     "client request" []]
        | Some (Failed _ EOF) => []
        | Some (Failed pm e) =>
            if stopped s then []
            else [mkEvent ErrorLevel (loggingContextWithMessage s w (OfClient <$> pm))
                          "error parsing client request: %s" [e]]
        | None => []
        end)
  /\
  (let '(r, w') := ParseServerResponse s w in
   r = default (Failed None EOF) (head (net.incoming (target w)))
   /\ net.incoming (target w') = tail (net.incoming (target w))
   /\ net.written (target w') = net.written (target w)
   /\ client w' = client w
   /\ log w' = log w ++
        match head (net.incoming (target w)) with
        | Some (Parsed m) =>
            [mkEvent DebugLevel (loggingContextWithMessage s w (Some (OfServer m)))
                     "server response" []]
        | Some (Failed _ EOF) => []
        | Some (Failed pm e) =>
            if stopped s then []
            else [mkEvent ErrorLevel (loggingContextWithMessage s w (OfServer <$> pm))
                          "error parsing server response: %#v" [e]]
        | None => []
        end).
Proof.
  split.
  - unfold ParseClientRequest, ParseClientMessage, parse.
    destruct w as [[a [|[m|pm [|txt]] i] f x] tg lg]; simpl;
      rewrite ?app_nil_r; auto 10.
    destruct (stopped s); simpl; rewrite ?app_nil_r; auto 10.
  - unfold ParseServerResponse, ParseServerMessage, parse.
    destruct w as [cl [a [|[m|pm [|txt]] i] f x] lg]; simpl;
      rewrite ?app_nil_r; auto 10.
    destruct (stopped s); simpl; rewrite ?app_nil_r; auto 10.
Qed.

(** ** Authentication hand-off *)

Section HandleProperties.

Variable Authenticate :
  Session -> option ClientMessage -> World -> bool * option goerror * Session * World.

(** C5: when [Authenticate] reports a failure without an error, [Handle]
    hands exactly one [Error] message of severity Fatal to the client,
    touches nothing else, does not enter the forwarding loop (whatever
    the schedule) and returns no error; when [Authenticate] returns an
    error, [Handle] returns that error and writes nothing. *)
Theorem Handle_authentication_outcome
    (s : Session) (w : World) (success : bool) (err : option goerror)
    (s1 : Session) (w1 : World)
    (Hauth : Authenticate s (startup s) w = (success, err, s1, w1)) :
  match err with
  | Some e => forall sched, Handle Authenticate sched s w = Returns (Some e) s1 w1
  | None =>
      success = false ->
      exists w2 o,
        (forall sched, Handle Authenticate sched s w = Returns None s1 w2)
        /\ net.written (client w2)
           = net.written (client w1)
               ++ [([Error (bytes_of_string "Fatal")
                           (bytes_of_string "failed to authenticate")], o)]
        /\ net.incoming (client w2) = net.incoming (client w1)
        /\ target w2 = target w1
        /\ log w2 = log w1
  end.
Proof.
  destruct err as [e|].
  - intros sched. unfold Handle. rewrite Hauth. reflexivity.
  - intros ->.
    destruct (net.wfail (client w1)) as [|o fails] eqn:Hf.
    + eexists _, None. split.
      * intros sched. unfold Handle. rewrite Hauth. simpl.
        unfold WriteToClient, WriteMessage, net.write. rewrite Hf. reflexivity.
      * simpl. auto.
    + eexists _, o. split.
      * intros sched. unfold Handle. rewrite Hauth. simpl.
        unfold WriteToClient, WriteMessage, net.write. rewrite Hf. reflexivity.
      * simpl. auto.
Qed.

End HandleProperties.

Lemma Handle_authentication_outcome_witness :
  (exists w2 o,
     (forall sched, Handle Sample.reject sched Sample.alice Sample.idle
                    = Returns None Sample.alice w2)
     /\ net.written (client w2)
        = net.written (client Sample.idle)
            ++ [([Error (bytes_of_string "Fatal")
                        (bytes_of_string "failed to authenticate")], o)]
     /\ net.incoming (client w2) = net.incoming (client Sample.idle)
     /\ target w2 = target Sample.idle
     /\ log w2 = log Sample.idle)
  /\ (forall sched, Handle Sample.unreachable sched Sample.alice Sample.idle
                    = Returns (Some (ErrorString "dial tcp: connection refused"))
                              Sample.alice Sample.idle).
Proof.
  split.
  - apply (Handle_authentication_outcome Sample.reject Sample.alice Sample.idle
             false None Sample.alice Sample.idle); reflexivity.
  - apply (Handle_authentication_outcome Sample.unreachable Sample.alice Sample.idle
             false (Some (ErrorString "dial tcp: connection refused"))
             Sample.alice Sample.idle); reflexivity.
Defined.

(** ** Startup parsing *)

(** C7: an SSL negotiation request is returned as it is and the session is
    left alone; any other startup message without the user option, or with
    it but without the database option, is refused with an error; with
    both options the message is returned and the session's User and
    Database are the two option values. *)
Theorem parseStartupMessage_options
    (s : Session) (w : World) (ssl : bool) (opts : gmap string bytes)
    (rest : list (ParseResult ClientMessage))
    (Hin : net.incoming (client w) = Parsed (StartupMessage ssl opts) :: rest) :
  let '(res, s', w') := parseStartupMessage s w in
  net.incoming (client w') = rest /\
  if ssl then res = Ok (StartupMessage ssl opts) /\ s' = s
  else
    match opts !! "user", opts !! "database" with
    | None, _ => res = Err (ErrorString "no username sent with startup message")
    | Some _, None => res = Err (ErrorString "no database name sent with startup message")
    | Some u, Some d =>
        res = Ok (StartupMessage ssl opts)
        /\ s' = set_Database d (set_User u s)
        /\ User s' = u /\ Database s' = d
    end.
Proof.
  unfold parseStartupMessage, ParseClientRequest, ParseClientMessage, parse.
  rewrite Hin. simpl.
  destruct ssl; simpl.
  - auto.
  - unfold comma_ok.
    destruct (opts !! "user") as [u|]; simpl; [|auto].
    destruct (opts !! "database") as [d|]; simpl; auto.
Qed.

Lemma parseStartupMessage_options_witness :
  let '(res, s', w') :=
    parseStartupMessage Sample.fresh
      (Sample.client_sends [Parsed (StartupMessage false Sample.options)]) in
  net.incoming (client w') = [] /\
  res = Ok (StartupMessage false Sample.options)
  /\ s' = set_Database (bytes_of_string "app") (set_User (bytes_of_string "alice") Sample.fresh)
  /\ User s' = bytes_of_string "alice" /\ Database s' = bytes_of_string "app".
Proof.
  exact (parseStartupMessage_options Sample.fresh
           (Sample.client_sends [Parsed (StartupMessage false Sample.options)])
           false Sample.options [] eq_refl).
Defined.

(** ** Asking for the password *)

(** C8 does not hold as stated when the write to the client fails: the
    client's password message is waiting, yet nothing is read, nothing is
    stored and the write's error is returned. *)
Lemma GetUserPassword_unwritable_client_reads_nothing :
  let '(res, s', w') := GetUserPassword 3%Z Sample.alice Sample.client_unwritable in
  net.incoming (client Sample.client_unwritable) = [Parsed (PasswordMessage Sample.secret)]
  /\ net.incoming (client w') = net.incoming (client Sample.client_unwritable)
  /\ res = Err Sample.broken_pipe
  /\ password s' <> Sample.secret.
Proof. vm_compute. repeat split; discriminate. Qed.

(** C8 (amended): [GetUserPassword] hands the client one
    [AuthenticationRequest] with the method asked for and the session's
    salt. If that write fails, its error is returned, nothing is read and
    the session is unchanged. Otherwise one client message is read: a
    [PasswordMessage] is stored on the session and returned with the
    request and no error; any other message, a failed read or the end of
    the stream gives an error and leaves the session unchanged. *)
Theorem GetUserPassword_exchange
    (method : AuthenticationMethod) (s : Session) (w : World) :
  let auth := AuthenticationRequest method (salt s) in
  let '(res, s', w') := GetUserPassword method s w in
  exists o,
    net.written (client w') = net.written (client w) ++ [([auth], o)]
    /\ target w' = target w
    /\ match o with
       | Some e =>
           res = Err e /\ s' = s /\ net.incoming (client w') = net.incoming (client w)
       | None =>
           net.incoming (client w') = tail (net.incoming (client w))
           /\ match head (net.incoming (client w)) with
              | Some (Parsed (PasswordMessage pwd)) =>
                  res = Ok (auth, PasswordMessage pwd) /\ s' = set_password pwd s
                  /\ password s' = pwd
              | Some (Parsed _) =>
                  res = Err (ErrorString "expected password message") /\ s' = s
              | Some (Failed _ e) => res = Err e /\ s' = s
              | None => res = Err EOF /\ s' = s
              end
       end.
Proof.
  unfold GetUserPassword, WriteToClient, WriteMessage, net.write.
  destruct w as [[addr inc fails wr] tg lg]; simpl.
  assert (Hread : forall c0 : ClientConn,
    net.incoming c0 = inc ->
    let '(r, w2) := ParseClientRequest s (mkWorld c0 tg lg) in
    r = default (Failed None EOF) (head inc)
    /\ net.incoming (client w2) = tail inc
    /\ net.written (client w2) = net.written c0
    /\ target w2 = tg).
  { intros [a i f x] Hi; simpl in Hi; subst i.
    unfold ParseClientRequest, ParseClientMessage, parse; simpl.
    destruct inc as [|[m|pm [|txt]] inc]; simpl; auto.
    destruct (stopped s); simpl; auto. }
  destruct fails as [|[e|] fails]; simpl.
  - specialize (Hread (net.mkConn addr inc []
                         (wr ++ [([AuthenticationRequest method (salt s)], None)]))
                      eq_refl).
    unfold set_client; simpl.
    destruct (ParseClientRequest _ _) as [r w2].
    destruct Hread as (-> & Hi & Hw & Ht).
    destruct inc as [|[m|pm e] inc]; simpl in *; [|destruct m|];
      simpl; exists None; auto 10.
  - exists (Some e). auto.
  - specialize (Hread (net.mkConn addr inc fails
                         (wr ++ [([AuthenticationRequest method (salt s)], None)]))
                      eq_refl).
    unfold set_client; simpl.
    destruct (ParseClientRequest _ _) as [r w2].
    destruct Hread as (-> & Hi & Hw & Ht).
    destruct inc as [|[m|pm e] inc]; simpl in *; [|destruct m|];
      simpl; exists None; auto 10.
Qed.

(** ** What the session's reads and writes touch *)

Lemma ParseServerResponse_frame (s : Session) (w : World) :
  let '(r, w') := ParseServerResponse s w in
  r = default (Failed None EOF) (head (net.incoming (target w)))
  /\ client w' = client w
  /\ net.incoming (target w') = tail (net.incoming (target w))
  /\ net.wfail (target w') = net.wfail (target w)
  /\ net.written (target w') = net.written (target w).
Proof.
  unfold ParseServerResponse, ParseServerMessage, parse.
  destruct w as [cl [a [|[m|pm [|txt]] i] f x] lg]; simpl; auto.
  destruct (stopped s); simpl; auto.
Qed.

Lemma ParseClientRequest_frame (s : Session) (w : World) :
  let '(r, w') := ParseClientRequest s w in
  r = default (Failed None EOF) (head (net.incoming (client w)))
  /\ target w' = target w
  /\ net.incoming (client w') = tail (net.incoming (client w))
  /\ net.wfail (client w') = net.wfail (client w)
  /\ net.written (client w') = net.written (client w).
Proof.
  unfold ParseClientRequest, ParseClientMessage, parse.
  destruct w as [[a [|[m|pm [|txt]] i] f x] tg lg]; simpl; auto.
  destruct (stopped s); simpl; auto.
Qed.

Lemma WriteToServer_frame (msg : ClientMessage) (w : World) :
  client (snd (WriteToServer msg w)) = client w
  /\ net.incoming (target (snd (WriteToServer msg w))) = net.incoming (target w)
  /\ log (snd (WriteToServer msg w)) = log w.
Proof.
  unfold WriteToServer, WriteMessage, net.write.
  destruct (net.wfail (target w)); simpl; auto.
Qed.

Lemma write_client_frame (buf : list ServerMessage) (w : World) :
  let w' := set_client (snd (WriteMessages buf (client w))) w in
  target w' = target w
  /\ log w' = log w
  /\ net.incoming (client w') = net.incoming (client w)
  /\ exists o, net.written (client w') = net.written (client w) ++ [(buf, o)].
Proof.
  unfold WriteMessages, net.write.
  destruct (net.wfail (client w)) as [|o fails]; simpl; eauto 10.
Qed.

Lemma flush_rest_frame (buf : list ServerMessage) (w : World) :
  target (flush_rest buf w) = target w
  /\ log (flush_rest buf w) = log w
  /\ net.incoming (client (flush_rest buf w)) = net.incoming (client w)
  /\ exists new,
       net.written (client (flush_rest buf w)) = net.written (client w) ++ new
       /\ map fst new = if (0 <? length buf)%nat then [buf] else [].
Proof.
  unfold flush_rest.
  destruct (0 <? length buf)%nat.
  - pose proof (write_client_frame buf w) as H; simpl in H.
    destruct (WriteMessages buf (client w)) as [e c]; simpl in *.
    destruct H as (Ht & Hl & Hi & o & Hw).
    repeat split; auto. exists [(buf, o)]. auto.
  - repeat split; auto. exists []. rewrite app_nil_r. auto.
Qed.

Lemma buffer_message_frame (msg : ServerMessage) (buf : list ServerMessage) (w : World) :
  let '(buf', w') := buffer_message msg buf w in
  target w' = target w
  /\ log w' = log w
  /\ net.incoming (client w') = net.incoming (client w)
  /\ exists new,
       net.written (client w') = net.written (client w) ++ new
       /\ if flush_needed msg || (15 <? length (buf ++ [msg]))%nat
          then buf' = [] /\ map fst new = [buf ++ [msg]]
          else buf' = buf ++ [msg] /\ new = [].
Proof.
  unfold buffer_message.
  destruct (flush_needed msg || (15 <? length (buf ++ [msg]))%nat).
  - pose proof (write_client_frame (buf ++ [msg]) w) as H; simpl in H.
    destruct (WriteMessages (buf ++ [msg]) (client w)) as [e c]; simpl in *.
    destruct H as (Ht & Hl & Hi & o & Hw).
    repeat split; auto. exists [(buf ++ [msg], o)]. auto.
  - repeat split; auto. exists []. rewrite app_nil_r. auto.
Qed.

(** ** The controlling call and the recorded errors *)

Lemma step_k_errs (t : thread) (st : Proxy) : k_errs (step t st) = k_errs st.
Proof.
  destruct t; simpl;
    unfold proxy_wait, proxyClientMessages, proxyServerMessages;
    repeat case_match; reflexivity.
Qed.

Lemma run_k_errs (sched : list thread) (st : Proxy) :
  k_errs (run sched st) = k_errs st.
Proof.
  revert st. induction sched as [|t sched IH]; intros st; simpl; [reflexivity|].
  unfold run in IH. rewrite IH. apply step_k_errs.
Qed.

Lemma Broadcast_not_returned (k : ctl_pc) (r : option goerror) :
  Broadcast k = Returned r -> k = Returned r.
Proof. destruct k; simpl; congruence. Qed.

Lemma step_returned (t : thread) (st : Proxy) (r : option goerror) :
  slice.len (k_errs st) = 0 ->
  k_pc (step t st) = Returned r ->
  r = None \/ k_pc st = Returned r.
Proof.
  intros Hlen.
  destruct t; simpl;
    unfold proxy_wait, proxyClientMessages, proxyServerMessages;
    repeat case_match; simpl; intros Hret;
    try (apply Broadcast_not_returned in Hret); auto; try congruence.
  all: rewrite ?Hlen in *; try discriminate;
    try (left; congruence); try (right; congruence).
Qed.

Lemma run_returned (sched : list thread) (st : Proxy) (r : option goerror) :
  slice.len (k_errs st) = 0 ->
  k_pc (run sched st) = Returned r ->
  r = None \/ k_pc st = Returned r.
Proof.
  revert st. induction sched as [|t sched IH]; intros st Hlen; simpl; [auto|].
  intros H. apply IH in H; [|rewrite step_k_errs; exact Hlen].
  destruct H as [H|H]; [auto|]. eapply step_returned; eauto.
Qed.

(** Whatever the schedule and whatever the directions record, the
    controlling call returns nil: its own copy of the slice header keeps
    length 0. *)
Lemma proxy_returns_nil (sched : list thread) (s : Session) (w : World)
    (err : option goerror) (s' : Session) (w' : World) :
  proxy sched s w = Returns err s' w' -> err = None.
Proof.
  unfold proxy. intros H.
  destruct (k_pc (run sched (proxy_start s w))) as [| | |r] eqn:Hk; try discriminate.
  inversion H; subst.
  apply run_returned in Hk; [|reflexivity].
  destruct Hk as [Hk|Hk]; [exact Hk|discriminate].
Qed.

(** C1 (the code departs from it): the backend connection is reset, the
    response direction records that error in its slice and signals, and
    the controlling call, woken by the signal, finds its own slice empty
    and returns nil; so does [Handle] after a successful authentication. *)
Theorem proxy_loses_recorded_error :
  let sched := [Controller; ServerDirection; ServerDirection; Controller] in
  let st := run sched (proxy_start Sample.alice Sample.backend_reset) in
  s_pc st = Finished
  /\ slice.index (s_errs st) 0 (errors st) = Some (Some Sample.reset)
  /\ slice.len (k_errs st) = 0
  /\ (exists s' w', proxy sched Sample.alice Sample.backend_reset = Returns None s' w')
  /\ (exists s' w',
        Handle Sample.accept sched Sample.alice Sample.backend_reset = Returns None s' w').
Proof. vm_compute. eauto 10. Qed.

(** ** The flush triggers *)

Lemma flush_needed_synchronizing (msg : ServerMessage) :
  flush_needed msg = true <-> synchronizing msg.
Proof.
  unfold synchronizing. split.
  - destruct msg as [m sa| | |]; simpl; try discriminate; auto.
    intros H. right. exists m, sa. split; [reflexivity|].
    intros ->. discriminate.
  - intros [->|(m & sa & -> & Hm)]; simpl; [reflexivity|].
    destruct (Z.eqb_spec m AuthenticationMethodOK); [contradiction|reflexivity].
Qed.

Lemma flush_needed_not_synchronizing (msg : ServerMessage) :
  flush_needed msg = false <-> ~ synchronizing msg.
Proof.
  rewrite <- flush_needed_synchronizing.
  destruct (flush_needed msg); split; congruence.
Qed.

(** C4: when the response direction parses a [ReadyForQuery], or an
    [AuthenticationRequest] whose method is not OK, the whole buffer with
    that message at its end is handed to the client as one batch in the
    same iteration, whatever the size of the buffer, and the buffer is
    empty afterwards. *)
Theorem synchronizing_message_flushes
    (st : Proxy) (msg : ServerMessage) (rest : list (ParseResult ServerMessage))
    (Hpc : s_pc st = InParse)
    (Hin : net.incoming (target (world st)) = Parsed msg :: rest)
    (Hmsg : synchronizing msg) :
  let st' := step ServerDirection st in
  s_buf st' = []
  /\ s_pc st' = AtHead
  /\ exists o,
       net.written (client (world st'))
       = net.written (client (world st)) ++ [(s_buf st ++ [msg], o)].
Proof.
  apply flush_needed_synchronizing in Hmsg.
  simpl. unfold proxyServerMessages. rewrite Hpc.
  pose proof (ParseServerResponse_frame (sess st) (world st)) as Hp.
  destruct (ParseServerResponse (sess st) (world st)) as [r w1].
  destruct Hp as (-> & Hc & _). rewrite Hin. simpl.
  unfold buffer_message. rewrite Hmsg. simpl.
  pose proof (write_client_frame (s_buf st ++ [msg]) w1) as Hw; simpl in Hw.
  destruct (WriteMessages (s_buf st ++ [msg]) (client w1)) as [e c]; simpl in *.
  destruct Hw as (_ & _ & _ & o & Hw). rewrite Hc in Hw.
  repeat split; eauto.
Qed.

Lemma synchronizing_message_flushes_witness :
  (let st := run (repeat ServerDirection 7) (proxy_start Sample.alice Sample.query_result) in
   let st' := step ServerDirection st in
   s_buf st' = []
   /\ s_pc st' = AtHead
   /\ exists o,
        net.written (client (world st'))
        = net.written (client (world st)) ++ [(s_buf st ++ [ReadyForQuery], o)])
  /\
  (let st := run (repeat ServerDirection 5) (proxy_start Sample.alice Sample.challenge) in
   let st' := step ServerDirection st in
   s_buf st' = []
   /\ s_pc st' = AtHead
   /\ exists o,
        net.written (client (world st'))
        = net.written (client (world st))
            ++ [(s_buf st ++ [AuthenticationRequest 5%Z (bytes_of_string "Zx3q")], o)]).
Proof.
  split.
  - apply (synchronizing_message_flushes
             (run (repeat ServerDirection 7) (proxy_start Sample.alice Sample.query_result))
             ReadyForQuery []);
      [reflexivity | reflexivity | left; reflexivity].
  - apply (synchronizing_message_flushes
             (run (repeat ServerDirection 5) (proxy_start Sample.alice Sample.challenge))
             (AuthenticationRequest 5%Z (bytes_of_string "Zx3q")) []);
      [reflexivity | reflexivity | right].
    exists 5%Z, (bytes_of_string "Zx3q"). split; [reflexivity | discriminate].
Defined.

(** ** The size of the buffer *)

(** C2 does not hold as stated: after fifteen rows the buffer holds
    fifteen messages and nothing has been written; the sixteenth row joins
    them, and only then are the sixteen written as one batch. *)
Lemma sixteen_messages_buffered :
  let st15 := run (repeat ServerDirection 30) (proxy_start Sample.alice (Sample.rows 16)) in
  let st16 := run (repeat ServerDirection 32) (proxy_start Sample.alice (Sample.rows 16)) in
  length (s_buf st15) = 15
  /\ net.written (client (world st15)) = []
  /\ map length (batches (client (world st16))) = [16]
  /\ s_buf st16 = [].
Proof. vm_compute. auto. Qed.

Lemma step_buffer_bound (t : thread) (st : Proxy) :
  length (s_buf st) <= 15 ->
  length (s_buf (step t st)) <= 15
  /\ exists new,
       net.written (client (world (step t st))) = net.written (client (world st)) ++ new
       /\ Forall (fun b => 0 < length (fst b) <= 16) new.
Proof.
  intros Hb.
  assert (Hnil : forall l : list (list ServerMessage * option goerror),
             exists new, l = l ++ new /\ Forall (fun b => 0 < length (fst b) <= 16) new).
  { intros l. exists []. rewrite app_nil_r. auto. }
  destruct t; simpl.
  - unfold proxy_wait. repeat case_match; simpl; auto.
  - unfold proxyClientMessages.
    pose proof (ParseClientRequest_frame (sess st) (world st)) as Hp.
    destruct (c_pc st); simpl; auto.
    destruct (ParseClientRequest (sess st) (world st)) as [r w1].
    destruct Hp as (_ & _ & _ & _ & Hw).
    destruct r as [m|pm e].
    + pose proof (WriteToServer_frame m w1) as (Hc & _).
      destruct (WriteToServer m w1) as [e w2]; simpl in *.
      rewrite Hc, Hw. auto.
    + destruct (slice.append (c_errs st) e (errors st)); simpl. rewrite Hw. auto.
  - unfold proxyServerMessages.
    pose proof (ParseServerResponse_frame (sess st) (world st)) as Hp.
    destruct (s_pc st); simpl; auto.
    + destruct (stopped (sess st)); simpl; auto.
      split; [exact Hb|].
      destruct (flush_rest_frame (s_buf st) (world st)) as (_ & _ & _ & new & Hw & Hn).
      exists new. split; [exact Hw|].
      destruct (0 <? length (s_buf st))%nat eqn:Hlt.
      * destruct new as [|b [|b' new]]; try discriminate. inversion Hn as [Hf].
        apply Nat.ltb_lt in Hlt. constructor; [rewrite Hf; lia | constructor].
      * destruct new; [constructor | discriminate].
    + destruct (ParseServerResponse (sess st) (world st)) as [r w1].
      destruct Hp as (_ & Hc & _).
      destruct r as [m|pm e].
      * pose proof (buffer_message_frame m (s_buf st) w1) as Hf.
        destruct (buffer_message m (s_buf st) w1) as [buf w2]; simpl.
        destruct Hf as (_ & _ & _ & new & Hw & Hn). rewrite Hc in Hw.
        destruct (flush_needed m || (15 <? length (s_buf st ++ [m]))%nat) eqn:Hfl.
        -- destruct Hn as [-> Hn]. split; [simpl; lia|].
           exists new. split; [exact Hw|].
           destruct new as [|b [|b' new]]; try discriminate. inversion Hn as [Hf].
           constructor; [rewrite Hf, length_app; simpl; lia | constructor].
        -- destruct Hn as [-> ->]. apply orb_false_iff in Hfl as [_ Hfl].
           apply Nat.ltb_ge in Hfl. split; [exact Hfl|].
           exists []. rewrite app_nil_r in Hw. rewrite app_nil_r. auto.
      * destruct (slice.append (s_errs st) e (errors st)); simpl.
        split; [exact Hb|].
        destruct (flush_rest_frame (s_buf st) w1) as (_ & _ & _ & new & Hw & Hn).
        rewrite Hc in Hw. exists new. split; [exact Hw|].
        destruct (0 <? length (s_buf st))%nat eqn:Hlt.
        -- destruct new as [|b [|b' new]]; try discriminate. inversion Hn as [Hf].
           apply Nat.ltb_lt in Hlt. constructor; [rewrite Hf; lia | constructor].
        -- destruct new; [constructor | discriminate].
Qed.

(** C2 (amended): under every schedule the buffer of the response
    direction holds at most 15 messages between iterations, and every
    batch the loop hands to the client holds at least one and at most 16
    messages: the size-based flush fires right after the sixteenth
    buffered message. *)
Theorem buffer_never_exceeds_sixteen (sched : list thread) (s : Session) (w : World) :
  let st := run sched (proxy_start s w) in
  length (s_buf st) <= 15
  /\ exists new,
       net.written (client (world st)) = net.written (client w) ++ new
       /\ Forall (fun b => 0 < length (fst b) <= 16) new.
Proof.
  simpl.
  assert (Hgen : forall st0,
    length (s_buf st0) <= 15 ->
    length (s_buf (run sched st0)) <= 15
    /\ exists new,
         net.written (client (world (run sched st0)))
         = net.written (client (world st0)) ++ new
         /\ Forall (fun b => 0 < length (fst b) <= 16) new).
  { induction sched as [|t sched IH]; intros st0 Hb.
    - simpl. split; [exact Hb|]. exists []. rewrite app_nil_r. auto.
    - change (run (t :: sched) st0) with (run sched (step t st0)).
      destruct (step_buffer_bound t st0 Hb) as (Hb1 & new1 & Hw1 & Hn1).
      destruct (IH _ Hb1) as (Hb2 & new2 & Hw2 & Hn2).
      split; [exact Hb2|]. exists (new1 ++ new2).
      rewrite Hw2, Hw1, <- app_assoc. split; [reflexivity|].
      apply Forall_app; auto. }
  apply (Hgen (proxy_start s w)). simpl. lia.
Qed.

(** ** The response direction follows the flush policy *)

Lemma fed_snoc (done : list ServerMessage) (msg : ServerMessage) :
  fed (done ++ [msg]) = feed (fed done) msg.
Proof. unfold fed. rewrite fold_left_app. reflexivity. Qed.

Lemma follows_start (s : Session) (w : World) : follows w (proxy_start s w).
Proof.
  exists [], (net.incoming (target w)). simpl.
  repeat split; auto. rewrite app_nil_r. reflexivity.
Qed.

Lemma follows_same (w0 : World) (st st' : Proxy) :
  s_pc st' = s_pc st ->
  s_buf st' = s_buf st ->
  net.incoming (target (world st')) = net.incoming (target (world st)) ->
  batches (client (world st')) = batches (client (world st)) ->
  follows w0 st -> follows w0 st'.
Proof.
  intros Hpc Hbuf Hin Hb (done & rest & Hsplit & Hst).
  exists done, rest. split; [exact Hsplit|].
  rewrite Hpc, Hbuf, Hin, Hb. exact Hst.
Qed.

Lemma follows_step (w0 : World) (t : thread) (st : Proxy) :
  follows w0 st -> follows w0 (step t st).
Proof.
  intros Hf. destruct t; simpl.
  - unfold proxy_wait.
    destruct (k_pc st); exact Hf.
  - unfold proxyClientMessages.
    pose proof (ParseClientRequest_frame (sess st) (world st)) as Hp.
    destruct (c_pc st); try exact Hf.
    destruct (ParseClientRequest (sess st) (world st)) as [r w1].
    destruct Hp as (_ & Ht & _ & _ & Hw).
    destruct r as [m|pm e].
    + pose proof (WriteToServer_frame m w1) as (Hc & Hi & _).
      destruct (WriteToServer m w1) as [e w2]; simpl in *.
      eapply follows_same; [ | | | | exact Hf]; simpl; try reflexivity.
      * rewrite Hi, Ht. reflexivity.
      * unfold batches. rewrite Hc, Hw. reflexivity.
    + destruct (slice.append (c_errs st) e (errors st)).
      eapply follows_same; [ | | | | exact Hf]; simpl; try reflexivity.
      * rewrite Ht. reflexivity.
      * unfold batches. rewrite Hw. reflexivity.
  - destruct Hf as (done & rest & Hsplit & Hst).
    unfold proxyServerMessages.
    pose proof (ParseServerResponse_frame (sess st) (world st)) as Hp.
    destruct (s_pc st) eqn:Hpc.
    + destruct Hst as (Hin & Hbuf & Hb).
      destruct (stopped (sess st)).
      * exists done, rest. split; [exact Hsplit|]. simpl.
        destruct (flush_rest_frame (s_buf st) (world st)) as (Ht & _ & _ & new & Hw & Hn).
        split; [left; rewrite Ht; exact Hin|].
        unfold batches in *. rewrite Hw, map_app, Hb, Hn, <- app_assoc, Hbuf.
        reflexivity.
      * exists done, rest. split; [exact Hsplit|]. simpl. auto.
    + destruct Hst as (Hin & Hbuf & Hb).
      destruct (ParseServerResponse (sess st) (world st)) as [r w1].
      destruct Hp as (Hr & Hc & Hi & _).
      rewrite Hin in Hr, Hi.
      destruct r as [m|pm e].
      * destruct rest as [|[m'|pm' e'] rest]; simpl in Hr; try discriminate.
        inversion Hr; subst m'. simpl in Hi.
        pose proof (buffer_message_frame m (s_buf st) w1) as Hfr.
        destruct (buffer_message m (s_buf st) w1) as [buf w2].
        destruct Hfr as (Ht & _ & _ & new & Hw & Hn).
        exists (done ++ [m]), rest. split.
        { rewrite Hsplit, map_app, <- app_assoc. reflexivity. }
        simpl. rewrite Ht, Hi, fed_snoc. unfold feed. rewrite <- Hbuf.
        unfold batches in *. rewrite Hw, map_app, Hc, Hb.
        destruct (flush_needed m || (15 <? length (s_buf st ++ [m]))%nat).
        -- destruct Hn as [-> Hn]. simpl. rewrite Hn, <- app_assoc. auto.
        -- destruct Hn as [-> ->]. simpl. rewrite app_nil_r. auto.
      * destruct (slice.append (s_errs st) e (errors st)).
        exists done, rest. split; [exact Hsplit|]. simpl.
        destruct (flush_rest_frame (s_buf st) w1) as (Ht & _ & _ & new & Hw & Hn).
        rewrite Ht, Hi. split.
        -- destruct rest as [|[m'|pm' e'] rest]; simpl in *; [auto|discriminate|].
           right. inversion Hr; subst. eauto.
        -- unfold batches in *. rewrite Hw, map_app, Hc, Hb, Hn, <- app_assoc, Hbuf.
           reflexivity.
    + exists done, rest. rewrite Hpc. auto.
Qed.

Lemma follows_run (w0 : World) (sched : list thread) (st : Proxy) :
  follows w0 st -> follows w0 (run sched st).
Proof.
  revert st. induction sched as [|t sched IH]; intros st Hf; [exact Hf|].
  change (run (t :: sched) st) with (run sched (step t st)).
  apply IH, follows_step, Hf.
Qed.

(** ** Twenty messages without a synchronization point *)

(** C3 does not hold as stated: the backend sends twenty rows and
    closes; the client receives them in two batches, of sixteen and of
    four messages. *)
Lemma twenty_rows_sixteen_then_four :
  let st := run (repeat ServerDirection 42) (proxy_start Sample.alice (Sample.rows 20)) in
  s_pc st = Finished
  /\ net.incoming (target (world st)) = []
  /\ map length (batches (client (world st))) = [16; 4]
  /\ map length (batches (client (world st))) <> [15; 5].
Proof. vm_compute. repeat split; discriminate. Qed.

Lemma feed_below_threshold (msgs buf : list ServerMessage)
    (written : list (list ServerMessage)) :
  Forall (fun m => ~ synchronizing m) msgs ->
  length buf + length msgs <= 15 ->
  fold_left feed msgs (buf, written) = (buf ++ msgs, written).
Proof.
  revert buf. induction msgs as [|m msgs IH]; intros buf Hall Hlen; simpl.
  - rewrite app_nil_r. reflexivity.
  - apply Forall_cons in Hall. destruct Hall as [Hm%flush_needed_not_synchronizing Hall].
    simpl in Hlen. unfold feed at 2. simpl. rewrite Hm. simpl.
    assert (Hlt : (15 <? length (buf ++ [m]))%nat = false).
    { apply Nat.ltb_ge. rewrite length_app. simpl. lia. }
    rewrite Hlt, IH, <- app_assoc; [reflexivity|exact Hall|].
    rewrite length_app. simpl. lia.
Qed.

Lemma feed_at_threshold (m : ServerMessage) (buf : list ServerMessage)
    (written : list (list ServerMessage)) :
  length buf = 15 ->
  feed (buf, written) m = ([], written ++ [buf ++ [m]]).
Proof.
  intros Hlen. unfold feed. simpl.
  assert (Hlt : (15 <? length (buf ++ [m]))%nat = true).
  { apply Nat.ltb_lt. rewrite length_app. simpl. lia. }
  rewrite Hlt, orb_true_r. reflexivity.
Qed.

Lemma fed_twenty (msgs : list ServerMessage) :
  length msgs = 20 ->
  Forall (fun m => ~ synchronizing m) msgs ->
  fed msgs = (drop 16 msgs, [take 16 msgs]).
Proof.
  intros Hlen Hall.
  destruct (lookup_lt_is_Some_2 msgs 15) as [m Hm]; [lia|].
  rewrite (take_S_r msgs 15 m Hm).
  rewrite <- (take_drop 15 msgs) at 1.
  rewrite (drop_S msgs m 15 Hm).
  change (m :: drop 16 msgs) with ([m] ++ drop 16 msgs).
  rewrite <- (take_drop 15 msgs) in Hall.
  apply Forall_app in Hall. destruct Hall as [Hhead Htail].
  rewrite (drop_S msgs m 15 Hm) in Htail.
  apply Forall_cons in Htail. destruct Htail as [_ Htail].
  unfold fed. rewrite !fold_left_app.
  rewrite (feed_below_threshold (take 15 msgs) [] [] Hhead);
    [|rewrite length_take, Hlen; simpl; lia].
  simpl. rewrite feed_at_threshold; [|rewrite length_take, Hlen; reflexivity].
  rewrite (feed_below_threshold (drop 16 msgs) [] _ Htail);
    [reflexivity|rewrite length_drop, Hlen; simpl; lia].
Qed.

Lemma Parsed_app_inv (a b : list ServerMessage) (x y : list (ParseResult ServerMessage)) :
  map Parsed a ++ x = map Parsed b ++ y ->
  length x = length y ->
  a = b /\ x = y.
Proof.
  intros H Hlen.
  apply app_inj_2 in H; [|exact Hlen].
  destruct H as [H ->]. split; [|reflexivity].
  revert b H. induction a as [|m a IH]; intros [|m' b] H; simpl in H;
    try discriminate; [reflexivity|].
  inversion H; subst. f_equal. auto.
Qed.

Lemma Parsed_app_Failed (a b : list ServerMessage)
    (pm : option ServerMessage) (e : goerror) (x : list (ParseResult ServerMessage)) :
  map Parsed a ++ x = map Parsed b ++ Failed pm e :: x -> False.
Proof.
  intros H.
  change (Failed pm e :: x) with ([Failed pm e] ++ x) in H.
  rewrite app_assoc in H. apply app_inv_tail in H.
  assert (Hin : In (Failed pm e) (map Parsed a)).
  { rewrite H. apply in_or_app. right. left. reflexivity. }
  apply in_map_iff in Hin. destruct Hin as (m & Hm & _). discriminate.
Qed.

(** C3 (amended): if the backend's next twenty messages are neither
    [ReadyForQuery] nor an [AuthenticationRequest] with a method other than
    OK, and the response direction has finished right after them (stopped
    in front of what follows them, or on a failed frame that follows
    them), then under every schedule the direction has handed exactly two
    batches to the client: the first sixteen messages, written after the
    sixteenth, and the remaining four, written when the direction ended. *)
Theorem twenty_messages_two_batches
    (sched : list thread) (s : Session) (w : World)
    (msgs : list ServerMessage) (rest : list (ParseResult ServerMessage))
    (Hlen : length msgs = 20)
    (Hmsgs : Forall (fun m => ~ synchronizing m) msgs)
    (Hin : net.incoming (target w) = map Parsed msgs ++ rest)
    (Hpc : s_pc (run sched (proxy_start s w)) = Finished)
    (Hend : net.incoming (target (world (run sched (proxy_start s w)))) = rest
            \/ exists pm e,
                 rest = Failed pm e
                          :: net.incoming (target (world (run sched (proxy_start s w))))) :
  batches (client (world (run sched (proxy_start s w))))
  = batches (client w) ++ [take 16 msgs; drop 16 msgs].
Proof.
  destruct (follows_run w sched _ (follows_start s w)) as (done & rest' & Hsplit & Hst).
  rewrite Hpc in Hst. destruct Hst as (Hend' & Hb).
  rewrite Hin in Hsplit.
  assert (done = msgs) as ->.
  { destruct Hend as [He|(pm & e & He)]; destruct Hend' as [He'|(pm' & e' & He')].
    - rewrite <- He, <- He' in Hsplit.
      apply Parsed_app_inv in Hsplit; [|reflexivity]. symmetry. apply Hsplit.
    - rewrite <- He in Hsplit. rewrite He' in Hsplit.
      exfalso. eapply Parsed_app_Failed. exact Hsplit.
    - rewrite <- He' in Hsplit. rewrite He in Hsplit.
      exfalso. eapply Parsed_app_Failed. symmetry. exact Hsplit.
    - rewrite He, He' in Hsplit.
      apply Parsed_app_inv in Hsplit; [|reflexivity]. symmetry. apply Hsplit. }
  rewrite Hb, (fed_twenty msgs Hlen Hmsgs). simpl.
  unfold closing.
  assert (Hd : length (drop 16 msgs) = 4) by (rewrite length_drop; lia).
  rewrite Hd. reflexivity.
Qed.

Lemma twenty_messages_two_batches_witness :
  batches (client (world (run (repeat ServerDirection 42)
                              (proxy_start Sample.alice (Sample.rows 20)))))
  = batches (client (Sample.rows 20))
      ++ [take 16 (map Sample.row (seq 0 20)); drop 16 (map Sample.row (seq 0 20))].
Proof.
  apply (twenty_messages_two_batches (repeat ServerDirection 42) Sample.alice
           (Sample.rows 20) (map Sample.row (seq 0 20)) []).
  - reflexivity.
  - apply Forall_forall. intros m Hm.
    apply list_elem_of_In, in_map_iff in Hm. destruct Hm as (i & <- & _).
    intros [H|(method & sa & H & _)]; discriminate H.
  - reflexivity.
  - reflexivity.
  - left. reflexivity.
Defined.

(** ** Failed writes *)

Lemma reliable_write {R W} (batch : list W) (c : net.Conn R W) :
  reliable (snd (net.write batch c)) = snd (net.write batch (reliable c)).
Proof.
  unfold net.write, reliable.
  destruct c as [a i [|o f] x]; simpl; rewrite map_app; reflexivity.
Qed.

Lemma reliable_ParseClientRequest (s : Session) (w : World) :
  ParseClientRequest s (reliable_world w)
  = (fst (ParseClientRequest s w), reliable_world (snd (ParseClientRequest s w))).
Proof.
  unfold ParseClientRequest, ParseClientMessage, parse.
  destruct w as [[a [|[m|pm [|txt]] i] f x] tg lg]; simpl; try reflexivity.
  destruct (stopped s); reflexivity.
Qed.

Lemma reliable_ParseServerResponse (s : Session) (w : World) :
  ParseServerResponse s (reliable_world w)
  = (fst (ParseServerResponse s w), reliable_world (snd (ParseServerResponse s w))).
Proof.
  unfold ParseServerResponse, ParseServerMessage, parse.
  destruct w as [cl [a [|[m|pm [|txt]] i] f x] lg]; simpl; try reflexivity.
  destruct (stopped s); reflexivity.
Qed.

Lemma reliable_WriteToServer (msg : ClientMessage) (w : World) :
  WriteToServer msg (reliable_world w) = (None, reliable_world (snd (WriteToServer msg w))).
Proof.
  unfold WriteToServer, WriteMessage, net.write, reliable_world, reliable, set_target.
  destruct w as [cl [a i [|o f] x] lg]; simpl; rewrite map_app; reflexivity.
Qed.

Lemma reliable_write_client (buf : list ServerMessage) (w : World) :
  set_client (snd (WriteMessages buf (client (reliable_world w)))) (reliable_world w)
  = reliable_world (set_client (snd (WriteMessages buf (client w))) w).
Proof.
  unfold WriteMessages, net.write, reliable_world, reliable, set_client.
  destruct w as [[a i [|o f] x] tg lg]; simpl; rewrite map_app; reflexivity.
Qed.

Lemma reliable_flush_rest (buf : list ServerMessage) (w : World) :
  flush_rest buf (reliable_world w) = reliable_world (flush_rest buf w).
Proof.
  unfold flush_rest. destruct (0 <? length buf)%nat; [|reflexivity].
  pose proof (reliable_write_client buf w) as H.
  destruct (WriteMessages buf (client (reliable_world w))) as [e c].
  destruct (WriteMessages buf (client w)) as [e' c']. exact H.
Qed.

Lemma reliable_buffer_message (msg : ServerMessage) (buf : list ServerMessage) (w : World) :
  buffer_message msg buf (reliable_world w)
  = (fst (buffer_message msg buf w), reliable_world (snd (buffer_message msg buf w))).
Proof.
  unfold buffer_message.
  destruct (flush_needed msg || (15 <? length (buf ++ [msg]))%nat); [|reflexivity].
  pose proof (reliable_write_client (buf ++ [msg]) w) as H.
  destruct (WriteMessages (buf ++ [msg]) (client (reliable_world w))) as [e c].
  destruct (WriteMessages (buf ++ [msg]) (client w)) as [e' c']. simpl in *.
  rewrite H. reflexivity.
Qed.

Lemma reliable_step (t : thread) (st : Proxy) :
  reliable_proxy (step t st) = step t (reliable_proxy st).
Proof.
  destruct st as [se w h k ke c ce sp sr sb].
  destruct t; simpl.
  - unfold proxy_wait, reliable_proxy. simpl. destruct k; reflexivity.
  - unfold proxyClientMessages, reliable_proxy. simpl.
    destruct c; try reflexivity.
    rewrite reliable_ParseClientRequest.
    destruct (ParseClientRequest se w) as [[m|pm e] w1]; cbn [fst snd].
    + rewrite reliable_WriteToServer.
      destruct (WriteToServer m w1) as [e2 w3]. reflexivity.
    + destruct (slice.append ce e h). reflexivity.
  - unfold proxyServerMessages, reliable_proxy. simpl.
    destruct sp; try reflexivity.
    + destruct (stopped se); simpl; [|reflexivity].
      rewrite reliable_flush_rest. reflexivity.
    + rewrite reliable_ParseServerResponse.
      destruct (ParseServerResponse se w) as [[m|pm e] w1]; cbn [fst snd].
      * rewrite reliable_buffer_message.
        destruct (buffer_message m sb w1) as [buf w2]. reflexivity.
      * destruct (slice.append sr e h). cbn [world].
        rewrite reliable_flush_rest. reflexivity.
Qed.

Lemma reliable_run (sched : list thread) (st : Proxy) :
  reliable_proxy (run sched st) = run sched (reliable_proxy st).
Proof.
  revert st. induction sched as [|t sched IH]; intros st; [reflexivity|].
  change (run (t :: sched) st) with (run sched (step t st)).
  change (run (t :: sched) (reliable_proxy st))
    with (run sched (step t (reliable_proxy st))).
  rewrite IH, reliable_step. reflexivity.
Qed.

(** C9: a failed write changes nothing but its own outcome. Under every
    schedule the run with failing writes is, once the outcomes of writes
    are forgotten, the run in which every write succeeds: the same
    directions have ended, the same errors are recorded, the same signal
    was sent, the same events are logged and the same frames are parsed.
    In particular, when the request direction has parsed a message and the
    write to the backend fails, the direction goes on exactly as after a
    successful write (back to the head of its loop unless the message was
    a Termination), no error is recorded, the controlling call is not
    signalled and the only event logged is the debug event of the parse;
    and when the response direction flushes and the write to the client
    fails, it drops the buffer and goes back to the head of its loop in
    the same way. *)
Theorem write_failures_are_ignored :
  (forall (sched : list thread) (st : Proxy),
     reliable_proxy (run sched st) = run sched (reliable_proxy st))
  /\ (forall (st : Proxy) (msg : ClientMessage) (rest : list (ParseResult ClientMessage))
             (e : goerror) (fails : list (option goerror)),
        c_pc st = InParse ->
        net.incoming (client (world st)) = Parsed msg :: rest ->
        net.wfail (target (world st)) = Some e :: fails ->
        let st' := step ClientDirection st in
        net.written (target (world st'))
        = net.written (target (world st)) ++ [([msg], Some e)]
        /\ c_pc st' = (if is_Termination msg then Finished else AtHead)
        /\ c_errs st' = c_errs st
        /\ errors st' = errors st
        /\ k_pc st' = k_pc st
        /\ map ev_level (log (world st')) = map ev_level (log (world st)) ++ [DebugLevel]
        /\ net.incoming (client (world st')) = rest)
  /\ (forall (st : Proxy) (msg : ServerMessage) (rest : list (ParseResult ServerMessage))
             (e : goerror) (fails : list (option goerror)),
        s_pc st = InParse ->
        net.incoming (target (world st)) = Parsed msg :: rest ->
        net.wfail (client (world st)) = Some e :: fails ->
        flush_needed msg || (15 <? length (s_buf st ++ [msg]))%nat = true ->
        let st' := step ServerDirection st in
        net.written (client (world st'))
        = net.written (client (world st)) ++ [(s_buf st ++ [msg], Some e)]
        /\ s_pc st' = AtHead
        /\ s_buf st' = []
        /\ s_errs st' = s_errs st
        /\ errors st' = errors st
        /\ k_pc st' = k_pc st
        /\ map ev_level (log (world st')) = map ev_level (log (world st)) ++ [DebugLevel]
        /\ net.incoming (target (world st')) = rest).
Proof.
  split; [exact reliable_run|]. split.
  - intros [se [[ca ci cf cx] [ta ti tf tx] lg] h k ke c ce sp sr sb] msg rest e fails.
    simpl. intros -> -> ->.
    unfold proxyClientMessages, ParseClientRequest, ParseClientMessage, parse,
      WriteToServer, WriteMessage, net.write. simpl.
    rewrite map_app. auto 10.
  - intros [se [[ca ci cf cx] [ta ti tf tx] lg] h k ke c ce sp sr sb] msg rest e fails.
    simpl. intros -> -> -> Hflush.
    unfold proxyServerMessages, ParseServerResponse, ParseServerMessage, parse,
      buffer_message, WriteMessages, net.write. simpl.
    rewrite Hflush. simpl. rewrite map_app. auto 10.
Qed.

Lemma write_failures_are_ignored_witness :
  (let st := run [ClientDirection] (proxy_start Sample.alice Sample.backend_unwritable) in
   let st' := step ClientDirection st in
   net.written (target (world st'))
   = net.written (target (world st)) ++ [([Sample.query], Some Sample.broken_pipe)]
   /\ c_pc st' = AtHead
   /\ c_errs st' = c_errs st
   /\ errors st' = errors st
   /\ k_pc st' = k_pc st
   /\ map ev_level (log (world st')) = map ev_level (log (world st)) ++ [DebugLevel]
   /\ net.incoming (client (world st')) = [Parsed Sample.query])
  /\
  (let st := run (repeat ServerDirection 7)
                 (proxy_start Sample.alice Sample.query_result_unwritable) in
   let st' := step ServerDirection st in
   net.written (client (world st'))
   = net.written (client (world st))
       ++ [(s_buf st ++ [ReadyForQuery], Some Sample.broken_pipe)]
   /\ s_pc st' = AtHead
   /\ s_buf st' = []
   /\ s_errs st' = s_errs st
   /\ errors st' = errors st
   /\ k_pc st' = k_pc st
   /\ map ev_level (log (world st')) = map ev_level (log (world st)) ++ [DebugLevel]
   /\ net.incoming (target (world st')) = [Parsed (Sample.row 3)]).
Proof.
  split.
  - exact (proj1 (proj2 write_failures_are_ignored)
             (run [ClientDirection] (proxy_start Sample.alice Sample.backend_unwritable))
             Sample.query [Parsed Sample.query] Sample.broken_pipe []
             eq_refl eq_refl eq_refl).
  - exact (proj2 (proj2 write_failures_are_ignored)
             (run (repeat ServerDirection 7)
                  (proxy_start Sample.alice Sample.query_result_unwritable))
             ReadyForQuery [Parsed (Sample.row 3)] Sample.broken_pipe []
             eq_refl eq_refl eq_refl eq_refl).
Defined.

(** * Further properties *)

(** ** The session during the forwarding loop *)

Lemma Broadcast_returned (k : ctl_pc) :
  match Broadcast k with
  | Returned r => k = Returned r
  | _ => match k with Returned _ => False | _ => True end
  end.
Proof. destruct k; simpl; auto. Qed.

Lemma step_session (s : Session) (t : thread) (st : Proxy) :
  sess st = match k_pc st with Returned _ => set_stopped true s | _ => s end ->
  sess (step t st)
  = match k_pc (step t st) with Returned _ => set_stopped true s | _ => s end.
Proof.
  destruct st as [se w h k ke c ce sp sr sb]. simpl. intros Hs.
  destruct t; simpl.
  - unfold proxy_wait; simpl. destruct k; simpl; subst; reflexivity.
  - unfold proxyClientMessages; simpl. destruct c; simpl; auto.
    destruct (ParseClientRequest se w) as [[m|pm e] w1].
    + destruct (WriteToServer m w1). simpl. exact Hs.
    + destruct (slice.append ce e h). simpl.
      pose proof (Broadcast_returned k) as Hb.
      destruct (Broadcast k); destruct k; try contradiction; try discriminate; exact Hs.
  - unfold proxyServerMessages; simpl. destruct sp; simpl; auto.
    + destruct (stopped se); simpl; exact Hs.
    + destruct (ParseServerResponse se w) as [[m|pm e] w1].
      * destruct (buffer_message m sb w1). simpl. exact Hs.
      * destruct (slice.append sr e h). simpl.
        pose proof (Broadcast_returned k) as Hb.
        destruct (Broadcast k); destruct k; try contradiction; try discriminate; exact Hs.
Qed.

(** X1: under every schedule the forwarding loop leaves the session as it
    was (identifier, user, database, SSL flag, salt, password, startup
    message) except for [stopped], which is set, and never cleared again,
    exactly when the controlling call returns. *)
Theorem proxy_only_sets_stopped (sched : list thread) (s : Session) (w : World) :
  sess (run sched (proxy_start s w))
  = match k_pc (run sched (proxy_start s w)) with
    | Returned _ => set_stopped true s
    | _ => s
    end.
Proof.
  assert (Hgen : forall st,
    sess st = match k_pc st with Returned _ => set_stopped true s | _ => s end ->
    sess (run sched st)
    = match k_pc (run sched st) with Returned _ => set_stopped true s | _ => s end).
  { induction sched as [|t sched IH]; intros st Hs; [exact Hs|].
    change (run (t :: sched) st) with (run sched (step t st)).
    apply IH, step_session, Hs. }
  apply Hgen. reflexivity.
Qed.

(** ** Lost wake-ups *)

Lemma step_both_finished (t : thread) (st : Proxy) :
  c_pc st = Finished -> s_pc st = Finished ->
  k_pc st = BeforeWait \/ k_pc st = Waiting ->
  c_pc (step t st) = Finished /\ s_pc (step t st) = Finished
  /\ (k_pc (step t st) = BeforeWait \/ k_pc (step t st) = Waiting).
Proof.
  intros Hc Hs Hk. destruct t; simpl.
  - unfold proxy_wait. destruct Hk as [Hk|Hk]; rewrite Hk; simpl; auto.
  - unfold proxyClientMessages. rewrite Hc. auto.
  - unfold proxyServerMessages. rewrite Hs. auto.
Qed.

(** X2: a [Broadcast] sent before the controlling call waits is lost: if
    both directions have finished while the controlling call has not yet
    been woken, it never returns, whatever the schedule. *)
Theorem proxy_blocks_after_early_finish
    (st : Proxy) (sched : list thread)
    (Hc : c_pc st = Finished) (Hs : s_pc st = Finished)
    (Hk : k_pc st = BeforeWait \/ k_pc st = Waiting) :
  k_pc (run sched st) = BeforeWait \/ k_pc (run sched st) = Waiting.
Proof.
  revert st Hc Hs Hk. induction sched as [|t sched IH]; intros st Hc Hs Hk; [exact Hk|].
  change (run (t :: sched) st) with (run sched (step t st)).
  destruct (step_both_finished t st Hc Hs Hk) as (Hc' & Hs' & Hk').
  apply IH; assumption.
Qed.

Lemma proxy_blocks_after_early_finish_witness :
  let st := run [ServerDirection; ServerDirection; ClientDirection; ClientDirection]
                (proxy_start Sample.alice Fixture.both_closed) in
  (slice.len (s_errs st) = 1 /\ slice.len (c_errs st) = 1)
  /\ (k_pc (run [Controller; Controller; Controller] st) = BeforeWait
      \/ k_pc (run [Controller; Controller; Controller] st) = Waiting).
Proof.
  split; [split; reflexivity|].
  apply (proxy_blocks_after_early_finish
           (run [ServerDirection; ServerDirection; ClientDirection; ClientDirection]
                (proxy_start Sample.alice Fixture.both_closed))
           [Controller; Controller; Controller]);
    [reflexivity | reflexivity | left; reflexivity].
Defined.

(** ** Recorded errors *)

Lemma append_len (s : slice.header) (e : goerror) (h : slice.store) :
  slice.len (fst (slice.append s e h)) = S (slice.len s).
Proof. unfold slice.append. destruct (slice.len s <? slice.cap s)%nat; reflexivity. Qed.

Lemma step_recorded (t : thread) (st : Proxy) :
  (slice.len (c_errs st) <= 1 /\ (c_pc st <> Finished -> slice.len (c_errs st) = 0))
  /\ (slice.len (s_errs st) <= 1 /\ (s_pc st <> Finished -> slice.len (s_errs st) = 0))
  /\ (k_pc st = Woken \/ (exists r, k_pc st = Returned r) ->
      slice.len (c_errs st) = 1 \/ slice.len (s_errs st) = 1) ->
  (slice.len (c_errs (step t st)) <= 1
   /\ (c_pc (step t st) <> Finished -> slice.len (c_errs (step t st)) = 0))
  /\ (slice.len (s_errs (step t st)) <= 1
      /\ (s_pc (step t st) <> Finished -> slice.len (s_errs (step t st)) = 0))
  /\ (k_pc (step t st) = Woken \/ (exists r, k_pc (step t st) = Returned r) ->
      slice.len (c_errs (step t st)) = 1 \/ slice.len (s_errs (step t st)) = 1).
Proof.
  destruct st as [se w h k ke c ce sp sr sb]. simpl.
  intros ((Hc1 & Hc2) & (Hs1 & Hs2) & Hk).
  destruct t; simpl;
    [ unfold proxy_wait; simpl; destruct k
    | unfold proxyClientMessages; simpl; destruct c;
      [ | destruct (ParseClientRequest se w) as [[m|pm e] w1];
          [ destruct (WriteToServer m w1)
          | pose proof (append_len ce e h) as Hl;
            pose proof (Hc2 ltac:(discriminate)) as Hz;
            destruct (slice.append ce e h) as [ce' h'] ]
        | ]
    | unfold proxyServerMessages; simpl; destruct sp;
      [ destruct (stopped se)
      | destruct (ParseServerResponse se w) as [[m|pm e] w1];
          [ destruct (buffer_message m sb w1)
          | pose proof (append_len sr e h) as Hl;
            pose proof (Hs2 ltac:(discriminate)) as Hz;
            destruct (slice.append sr e h) as [sr' h'] ]
      | ] ];
    simpl in *;
    (split; [split|split; [split|]]);
    intros;
    try lia;
    try (apply Hc2; congruence);
    try (apply Hs2; congruence);
    try contradiction;
    try (exact (Hk ltac:(assumption)));
    try (apply Hk; left; reflexivity);
    try (left; lia);
    try (right; lia);
    try match goal with
        | H : _ \/ _ |- _ => destruct H as [H|[? H]]; discriminate
        end.
Qed.

(** X3: under every schedule each direction records at most one error, and
    it has recorded none as long as it is running; the controlling call is
    woken only after a direction has recorded one. *)
Theorem one_error_per_direction (sched : list thread) (s : Session) (w : World) :
  let st := run sched (proxy_start s w) in
  (slice.len (c_errs st) <= 1 /\ (c_pc st <> Finished -> slice.len (c_errs st) = 0))
  /\ (slice.len (s_errs st) <= 1 /\ (s_pc st <> Finished -> slice.len (s_errs st) = 0))
  /\ (k_pc st = Woken \/ (exists r, k_pc st = Returned r) ->
      slice.len (c_errs st) = 1 \/ slice.len (s_errs st) = 1).
Proof.
  simpl.
  assert (Hgen : forall st,
    ((slice.len (c_errs st) <= 1 /\ (c_pc st <> Finished -> slice.len (c_errs st) = 0))
     /\ (slice.len (s_errs st) <= 1 /\ (s_pc st <> Finished -> slice.len (s_errs st) = 0))
     /\ (k_pc st = Woken \/ (exists r, k_pc st = Returned r) ->
         slice.len (c_errs st) = 1 \/ slice.len (s_errs st) = 1)) ->
    ((slice.len (c_errs (run sched st)) <= 1
      /\ (c_pc (run sched st) <> Finished -> slice.len (c_errs (run sched st)) = 0))
     /\ (slice.len (s_errs (run sched st)) <= 1
         /\ (s_pc (run sched st) <> Finished -> slice.len (s_errs (run sched st)) = 0))
     /\ (k_pc (run sched st) = Woken \/ (exists r, k_pc (run sched st) = Returned r) ->
         slice.len (c_errs (run sched st)) = 1 \/ slice.len (s_errs (run sched st)) = 1))).
  { induction sched as [|t sched IH]; intros st H; [exact H|].
    change (run (t :: sched) st) with (run sched (step t st)).
    apply IH, step_recorded, H. }
  apply Hgen. simpl. repeat split; auto.
  intros [H|[r H]]; discriminate.
Qed.

(** ** Where the error of [Handle] comes from *)

(** X4: an error returned by [Handle] is an error returned by
    [Authenticate]; nothing that happens in the forwarding loop is ever
    returned. *)
Theorem Handle_error_is_from_Authenticate
    (Authenticate : Session -> option ClientMessage -> World
                    -> bool * option goerror * Session * World)
    (sched : list thread) (s : Session) (w : World)
    (e : goerror) (s' : Session) (w' : World)
    (Hret : Handle Authenticate sched s w = Returns (Some e) s' w') :
  exists success, Authenticate s (startup s) w = (success, Some e, s', w').
Proof.
  unfold Handle in Hret.
  destruct (Authenticate s (startup s) w) as [[[success err] s1] w1].
  destruct err as [e1|].
  - inversion Hret; subst. eauto.
  - destruct success; simpl in Hret.
    + apply proxy_returns_nil in Hret. discriminate.
    + destruct (WriteToClient _ w1). discriminate.
Qed.

Lemma Handle_error_is_from_Authenticate_witness :
  exists success,
    Sample.unreachable Sample.alice (startup Sample.alice) Sample.idle
    = (success, Some (ErrorString "dial tcp: connection refused"),
       Sample.alice, Sample.idle).
Proof.
  apply (Handle_error_is_from_Authenticate Sample.unreachable [] Sample.alice Sample.idle
           (ErrorString "dial tcp: connection refused") Sample.alice Sample.idle).
  reflexivity.
Defined.

(** ** The request direction forwards in order *)





(** ** The response direction loses nothing *)

Lemma feed_conserves (msgs : list ServerMessage)
    (acc : list ServerMessage * list (list ServerMessage)) :
  concat (snd (fold_left feed msgs acc)) ++ fst (fold_left feed msgs acc)
  = concat (snd acc) ++ fst acc ++ msgs.
Proof.
  revert acc. induction msgs as [|m msgs IH]; intros [buf out]; simpl.
  - rewrite app_nil_r. reflexivity.
  - rewrite IH. unfold feed. simpl.
    destruct (flush_needed m || (15 <? length (buf ++ [m]))%nat); simpl.
    + rewrite concat_app. simpl. rewrite app_nil_r, <- !app_assoc. reflexivity.
    + rewrite <- !app_assoc. reflexivity.
Qed.

Lemma closing_concat (buf : list ServerMessage) : concat (closing buf) = buf.
Proof.
  unfold closing. destruct buf; simpl; [reflexivity|].
  rewrite app_nil_r. reflexivity.
Qed.

(** X6: under every schedule the response direction hands the client
    exactly the messages it has taken from the backend's stream, each once
    and in the backend's order: the backend's stream is these messages
    followed by what is left of it (once the direction is finished,
    possibly with the failed frame that ended it in between); while the
    direction runs, the batches written so far followed by the buffer are
    these messages, and once it is finished the batches alone are: nothing
    taken from the stream is left unwritten. *)
Theorem response_direction_conserves_messages
    (sched : list thread) (s : Session) (w : World) :
  let st := run sched (proxy_start s w) in
  exists done rest new,
    net.incoming (target w) = map Parsed done ++ rest
    /\ batches (client (world st)) = batches (client w) ++ new
    /\ (if s_pc st is Finished
        then (net.incoming (target (world st)) = rest
              \/ exists pm e, rest = Failed pm e :: net.incoming (target (world st)))
             /\ concat new = done
        else net.incoming (target (world st)) = rest
             /\ concat new ++ s_buf st = done).
Proof.
  simpl.
  destruct (follows_run w sched _ (follows_start s w)) as (done & rest & Hsplit & Hst).
  pose proof (feed_conserves done ([], [])) as Hc. simpl in Hc. fold (fed done) in Hc.
  destruct (s_pc (run sched (proxy_start s w))).
  - destruct Hst as (Hin & Hbuf & Hb).
    exists done, rest, (snd (fed done)). rewrite Hbuf. auto.
  - destruct Hst as (Hin & Hbuf & Hb).
    exists done, rest, (snd (fed done)). rewrite Hbuf. auto.
  - destruct Hst as (Hin & Hb).
    exists done, rest, (snd (fed done) ++ closing (fst (fed done))).
    rewrite concat_app, closing_concat. auto.
Qed.

(** ** The directions come to an end *)

Lemma server_bound_step (t : thread) (st : Proxy) :
  server_bound (step t st) + (if is_server_step t then 1 else 0)
  <= Nat.max (server_bound st) (if is_server_step t then 1 else 0).
Proof.
  destruct st as [se w h k ke c ce sp sr sb].
  unfold server_bound. destruct t; simpl.
  - unfold proxy_wait; simpl. destruct k; simpl; lia.
  - unfold proxyClientMessages; simpl.
    pose proof (ParseClientRequest_frame se w) as Hp.
    destruct c; simpl; try lia.
    destruct (ParseClientRequest se w) as [r w1].
    destruct Hp as (_ & Ht & _).
    destruct r as [m|pm e].
    + pose proof (WriteToServer_frame m w1) as (_ & Hi & _).
      destruct (WriteToServer m w1) as [e w2]; simpl in *.
      rewrite Hi, Ht. lia.
    + destruct (slice.append ce e h); simpl. rewrite Ht. lia.
  - unfold proxyServerMessages; simpl.
    pose proof (ParseServerResponse_frame se w) as Hp.
    destruct sp; simpl; try lia.
    + destruct (stopped se); simpl; lia.
    + destruct (ParseServerResponse se w) as [r w1].
      destruct Hp as (Hr & _ & Hi & _).
      destruct r as [m|pm e].
      * pose proof (buffer_message_frame m sb w1) as Hfr.
        destruct (buffer_message m sb w1) as [buf w2]; simpl.
        destruct Hfr as (Ht & _). rewrite Ht, Hi.
        destruct (net.incoming (target w)); simpl in *; [discriminate|lia].
      * destruct (slice.append sr e h); simpl. lia.
Qed.

Lemma client_bound_step (t : thread) (st : Proxy) :
  client_bound (step t st) + (if is_client_step t then 1 else 0)
  <= Nat.max (client_bound st) (if is_client_step t then 1 else 0).
Proof.
  destruct st as [se w h k ke c ce sp sr sb].
  unfold client_bound. destruct t; simpl.
  - unfold proxy_wait; simpl. destruct k; simpl; lia.
  - unfold proxyClientMessages; simpl.
    pose proof (ParseClientRequest_frame se w) as Hp.
    destruct c; simpl; try lia.
    + destruct (stopped se); simpl; lia.
    + destruct (ParseClientRequest se w) as [r w1].
      destruct Hp as (Hr & _ & Hi & _).
      destruct r as [m|pm e].
      * pose proof (WriteToServer_frame m w1) as (Hc & _).
        destruct (WriteToServer m w1) as [e w2]; simpl in *.
        rewrite Hc, Hi.
        destruct (net.incoming (client w)); simpl in *; [discriminate|].
        destruct (is_Termination m); lia.
      * destruct (slice.append ce e h); simpl. lia.
  - unfold proxyServerMessages; simpl.
    pose proof (ParseServerResponse_frame se w) as Hp.
    destruct sp; simpl; try lia.
    + destruct (flush_rest_frame sb w) as (_ & _ & Hi & _).
      destruct (stopped se); simpl; rewrite ?Hi; lia.
    + destruct (ParseServerResponse se w) as [r w1].
      destruct Hp as (_ & Hc & _).
      destruct r as [m|pm e].
      * pose proof (buffer_message_frame m sb w1) as Hfr.
        destruct (buffer_message m sb w1) as [buf w2]; simpl.
        destruct Hfr as (_ & _ & Hi & _). rewrite Hi, Hc. lia.
      * destruct (slice.append sr e h); simpl.
        destruct (flush_rest_frame sb w1) as (_ & _ & Hi & _).
        rewrite Hi, Hc. lia.
Qed.

Lemma bounds_run (sched : list thread) (st : Proxy) :
  server_bound (run sched st) + steps_of is_server_step sched
  <= Nat.max (server_bound st) (steps_of is_server_step sched)
  /\ client_bound (run sched st) + steps_of is_client_step sched
     <= Nat.max (client_bound st) (steps_of is_client_step sched).
Proof.
  revert st. induction sched as [|t sched IH]; intros st.
  - simpl. unfold steps_of. simpl. lia.
  - change (run (t :: sched) st) with (run sched (step t st)).
    destruct (IH (step t st)) as [Hs Hc].
    pose proof (server_bound_step t st) as Hs1.
    pose proof (client_bound_step t st) as Hc1.
    unfold steps_of in *. simpl.
    destruct t; simpl in *; lia.
Qed.

(** X7: every stream comes to an end, and so does every direction: a
    schedule that lets the response direction run at least twice for each
    frame left on the backend's stream and twice more finishes it, and
    likewise for the request direction and the client's stream, whatever
    the other threads do in between. *)
Theorem directions_finish (sched : list thread) (s : Session) (w : World) :
  (2 * length (net.incoming (target w)) + 2 <= steps_of is_server_step sched ->
   s_pc (run sched (proxy_start s w)) = Finished)
  /\ (2 * length (net.incoming (client w)) + 2 <= steps_of is_client_step sched ->
      c_pc (run sched (proxy_start s w)) = Finished).
Proof.
  destruct (bounds_run sched (proxy_start s w)) as [Hs Hc].
  unfold server_bound, client_bound in *.
  split; intros Hn.
  - destruct (s_pc (run sched (proxy_start s w))); simpl in *; [lia|lia|reflexivity].
  - destruct (c_pc (run sched (proxy_start s w))); simpl in *; [lia|lia|reflexivity].
Qed.

Lemma directions_finish_witness :
  s_pc (run (repeat ServerDirection 10) (proxy_start Sample.alice Sample.query_result))
  = Finished
  /\ c_pc (run [ClientDirection; Controller; ClientDirection]
               (proxy_start Sample.alice Sample.query_result))
     = Finished.
Proof.
  split.
  - apply (proj1 (directions_finish (repeat ServerDirection 10)
                    Sample.alice Sample.query_result)).
    vm_compute. lia.
  - apply (proj2 (directions_finish [ClientDirection; Controller; ClientDirection]
                    Sample.alice Sample.query_result)).
    vm_compute. lia.
Defined.

(** ** The session's secrets stay out of the loop *)

Lemma redact_ParseClientRequest (s : Session) (w : World) :
  ParseClientRequest (redact s) w = ParseClientRequest s w.
Proof. reflexivity. Qed.

Lemma redact_ParseServerResponse (s : Session) (w : World) :
  ParseServerResponse (redact s) w = ParseServerResponse s w.
Proof. reflexivity. Qed.

Lemma redact_step (t : thread) (st : Proxy) :
  redact_proxy (step t st) = step t (redact_proxy st).
Proof.
  destruct st as [se w h k ke c ce sp sr sb].
  destruct t; simpl.
  - unfold proxy_wait, redact_proxy. simpl. destruct k; reflexivity.
  - unfold proxyClientMessages, redact_proxy. simpl.
    destruct c; try reflexivity.
    rewrite redact_ParseClientRequest.
    destruct (ParseClientRequest se w) as [[m|pm e] w1].
    + destruct (WriteToServer m w1). reflexivity.
    + destruct (slice.append ce e h). reflexivity.
  - unfold proxyServerMessages, redact_proxy. simpl.
    destruct sp; try reflexivity.
    + destruct (stopped se); reflexivity.
    + rewrite redact_ParseServerResponse.
      destruct (ParseServerResponse se w) as [[m|pm e] w1].
      * destruct (buffer_message m sb w1). reflexivity.
      * destruct (slice.append sr e h). reflexivity.
Qed.

Lemma redact_run (sched : list thread) (st : Proxy) :
  redact_proxy (run sched st) = run sched (redact_proxy st).
Proof.
  revert st. induction sched as [|t sched IH]; intros st; [reflexivity|].
  change (run (t :: sched) st) with (run sched (step t st)).
  change (run (t :: sched) (redact_proxy st))
    with (run sched (step t (redact_proxy st))).
  rewrite IH, redact_step. reflexivity.
Qed.

(** X8: nothing the forwarding loop does depends on the password or the
    salt stored on the session: two sessions that differ only in these two
    fields, run under the same schedule on the same connections, write the
    same batches with the same outcomes, read the same frames, log the
    same events, record the same errors and are in the same places of
    their loops. *)
Theorem proxy_ignores_password_and_salt
    (sched : list thread) (w : World)
    (id : string) (user database : bytes) (ssl : bool)
    (stm : option ClientMessage) (stop : bool) (salt1 pw1 salt2 pw2 : bytes) :
  let st1 := run sched (proxy_start (mkSession id user database ssl salt1 pw1 stm stop) w) in
  let st2 := run sched (proxy_start (mkSession id user database ssl salt2 pw2 stm stop) w) in
  world st1 = world st2
  /\ errors st1 = errors st2
  /\ (k_pc st1, c_pc st1, s_pc st1) = (k_pc st2, c_pc st2, s_pc st2)
  /\ (c_errs st1, s_errs st1, s_buf st1) = (c_errs st2, s_errs st2, s_buf st2).
Proof.
  simpl.
  pose proof (redact_run sched
                (proxy_start (mkSession id user database ssl salt1 pw1 stm stop) w)) as H1.
  pose proof (redact_run sched
                (proxy_start (mkSession id user database ssl salt2 pw2 stm stop) w)) as H2.
  change (redact_proxy (proxy_start (mkSession id user database ssl salt2 pw2 stm stop) w))
    with (redact_proxy (proxy_start (mkSession id user database ssl salt1 pw1 stm stop) w))
    in H2.
  rewrite <- H2 in H1.
  repeat split.
  - exact (f_equal world H1).
  - exact (f_equal errors H1).
  - exact (f_equal (fun st => (k_pc st, c_pc st, s_pc st)) H1).
  - exact (f_equal (fun st => (c_errs st, s_errs st, s_buf st)) H1).
Qed.

(** ** The password request and the log *)

(** X10: when [GetUserPassword] succeeds, the message that carries the
    credential is handed to the logger: the call reports exactly one event,
    a debug event whose context holds the [PasswordMessage] itself. *)
Theorem GetUserPassword_logs_the_password_message
    (method : AuthenticationMethod) (s : Session) (w : World)
    (pwd : bytes) (rest : list (ParseResult ClientMessage))
    (Hwrite : forall e fails, net.wfail (client w) <> Some e :: fails)
    (Hin : net.incoming (client w) = Parsed (PasswordMessage pwd) :: rest) :
  let '(res, s', w') := GetUserPassword method s w in
  res = Ok (AuthenticationRequest method (salt s), PasswordMessage pwd)
  /\ log w'
     = log w ++ [mkEvent DebugLevel
                   (loggingContextWithMessage s w (Some (OfClient (PasswordMessage pwd))))
                   "client request" []].
Proof.
  unfold GetUserPassword, WriteToClient, WriteMessage, net.write.
  destruct w as [[a i f x] tg lg]. simpl in *. subst i.
  destruct f as [|[e|] f]; simpl.
  - unfold ParseClientRequest, ParseClientMessage, parse. simpl. auto.
  - exfalso. apply (Hwrite e f). reflexivity.
  - unfold ParseClientRequest, ParseClientMessage, parse. simpl. auto.
Qed.

Lemma GetUserPassword_logs_the_password_message_witness :
  let '(res, s', w') := GetUserPassword 3%Z Sample.alice Fixture.answers_password in
  res = Ok (AuthenticationRequest 3%Z (salt Sample.alice), PasswordMessage Sample.secret)
  /\ log w'
     = log Fixture.answers_password
         ++ [mkEvent DebugLevel
               (loggingContextWithMessage Sample.alice Fixture.answers_password
                  (Some (OfClient (PasswordMessage Sample.secret))))
               "client request" []].
Proof.
  apply (GetUserPassword_logs_the_password_message 3%Z Sample.alice
           Fixture.answers_password Sample.secret []).
  - intros e fails H. discriminate H.
  - reflexivity.
Defined.

(** ** What a refused startup message leaves behind *)

(** X11: a startup parse that fails before the options are looked at (a
    failed read, the end of the stream, a message that is not a startup
    message) leaves the session as it was; one that fails on a missing
    option does not: without the user option the session's User is
    cleared, and with the user option but without the database option the
    session's User is already the new user and its Database is cleared. *)
Theorem parseStartupMessage_failure_leaves
    (s : Session) (w : World) :
  let '(res, s', w') := parseStartupMessage s w in
  match head (net.incoming (client w)) with
  | None => res = Err EOF /\ s' = s
  | Some (Failed _ e) => res = Err e /\ s' = s
  | Some (Parsed (StartupMessage false opts)) =>
      match opts !! "user", opts !! "database" with
      | None, _ =>
          res = Err (ErrorString "no username sent with startup message")
          /\ s' = set_User [] s
      | Some u, None =>
          res = Err (ErrorString "no database name sent with startup message")
          /\ s' = set_Database [] (set_User u s)
      | Some _, Some _ => exists m, res = Ok m
      end
  | Some (Parsed (StartupMessage true opts)) => res = Ok (StartupMessage true opts)
  | Some (Parsed _) => res = Err (ErrorString "unexpected message type") /\ s' = s
  end.
Proof.
  unfold parseStartupMessage, ParseClientRequest, ParseClientMessage, parse.
  destruct w as [[a i f x] tg lg]. simpl.
  destruct i as [|[m|pm e] i]; simpl.
  - auto.
  - destruct m as [ssl opts| | |]; simpl; auto.
    destruct ssl; simpl; [reflexivity|].
    unfold comma_ok.
    destruct (opts !! "user") as [u|]; simpl; [|auto].
    destruct (opts !! "database") as [d|]; simpl; eauto.
  - destruct e; simpl; [auto|]. destruct (stopped s); simpl; auto.
Qed.

(** ** Sections of a configuration map *)

Lemma Map_range_failed (entries : list (value * value)) (m : gmap string value) :
  snd (ConfigMap.Map_range entries m) = false ->
  fst (ConfigMap.Map_range entries m) = ∅.
Proof.
  revert m. induction entries as [|[k v] entries IH]; intros m; simpl.
  - discriminate.
  - destruct k; simpl; auto.
Qed.

Lemma Map_range_succeeds (entries : list (value * value)) (m : gmap string value) :
  snd (ConfigMap.Map_range entries m) = true
  <-> Forall (fun e => exists key, fst e = VString key) entries.
Proof.
  revert m. induction entries as [|[k v] entries IH]; intros m; simpl.
  - split; auto.
  - rewrite Forall_cons. simpl. destruct k; simpl;
      try (split; [discriminate | intros [[key H] _]; discriminate H]).
    rewrite IH. split; [eauto | tauto].
Qed.

Lemma Map_range_lookup (entries : list (value * value)) (m : gmap string value) :
  NoDup (entries.*1) ->
  snd (ConfigMap.Map_range entries m) = true ->
  forall k v,
    fst (ConfigMap.Map_range entries m) !! k = Some v
    <-> (VString k, v) ∈ entries
        \/ (m !! k = Some v /\ forall v', (VString k, v') ∉ entries).
Proof.
  revert m. induction entries as [|[key v0] entries IH]; intros m Hnd Hok k v; simpl.
  - split; [intros H; right; split; [exact H|] | intros [H|[H _]]; [|exact H]].
    + intros v' H'. inversion H'.
    + inversion H.
  - simpl in Hnd. apply NoDup_cons in Hnd. destruct Hnd as [Hfresh Hnd].
    simpl in Hok. destruct key as [| | | |key| |]; try discriminate Hok.
    rewrite (IH _ Hnd Hok k v).
    assert (Hnone : forall v', (VString key, v') ∉ entries).
    { intros v' Hin. apply Hfresh.
      apply list_elem_of_fmap. exists (VString key, v'). auto. }
    destruct (decide (key = k)) as [->|Hne].
    + rewrite lookup_insert_eq. split.
      * intros [Hin|[Heq _]]; [exfalso; eapply Hnone; exact Hin|].
        left. inversion Heq; subst. apply elem_of_cons. auto.
      * intros [Hin|[_ Hno]].
        -- apply elem_of_cons in Hin. destruct Hin as [Heq|Hin].
           ++ inversion Heq; subst. right. split; [reflexivity|exact Hnone].
           ++ exfalso. eapply Hnone. exact Hin.
        -- exfalso. apply (Hno v0). apply elem_of_cons. auto.
    + rewrite lookup_insert_ne by exact Hne. split.
      * intros [Hin|[Hm Hno]].
        -- left. apply elem_of_cons. auto.
        -- right. split; [exact Hm|]. intros v' Hin.
           apply elem_of_cons in Hin. destruct Hin as [Heq|Hin].
           ++ inversion Heq; subst. contradiction.
           ++ eapply Hno. exact Hin.
      * intros [Hin|[Hm Hno]].
        -- apply elem_of_cons in Hin. destruct Hin as [Heq|Hin].
           ++ inversion Heq; subst. contradiction.
           ++ left. exact Hin.
        -- right. split; [exact Hm|]. intros v' Hin.
           apply (Hno v'). apply elem_of_cons. auto.
Qed.

(** X12: [Map] on a key that holds a map succeeds exactly when every key
    of that map is a string; on success the section it returns has exactly
    the entries of the map, each under its key, and on failure it returns
    the empty section. *)
Theorem Map_copies_string_keyed_entries
    (c : gmap string value) (name : string) (entries : list (value * value))
    (Hraw : c !! name = Some (VMap entries))
    (Hkeys : NoDup (entries.*1)) :
  (snd (ConfigMap.Map c name) = true
   <-> Forall (fun e => exists key, fst e = VString key) entries)
  /\ (snd (ConfigMap.Map c name) = true ->
      forall k v, fst (ConfigMap.Map c name) !! k = Some v <-> (VString k, v) ∈ entries)
  /\ (snd (ConfigMap.Map c name) = false -> fst (ConfigMap.Map c name) = ∅).
Proof.
  unfold ConfigMap.Map. rewrite Hraw.
  split; [apply Map_range_succeeds|]. split; [|apply Map_range_failed].
  intros Hok k v. rewrite (Map_range_lookup entries ∅ Hkeys Hok k v).
  rewrite lookup_empty. split; [intros [H|[H _]]; [exact H|discriminate H] | auto].
Qed.

Lemma Map_copies_string_keyed_entries_witness :
  (snd (ConfigMap.Map Fixture.logging "file") = true
   <-> Forall (fun e => exists key, fst e = VString key)
              [(VString "path", VString "/var/log/pg.log");
               (VString "verbose", VBool true)])
  /\ (snd (ConfigMap.Map Fixture.logging "file") = true ->
      forall k v,
        fst (ConfigMap.Map Fixture.logging "file") !! k = Some v
        <-> (VString k, v) ∈ [(VString "path", VString "/var/log/pg.log");
                              (VString "verbose", VBool true)])
  /\ (snd (ConfigMap.Map Fixture.logging "file") = false ->
      fst (ConfigMap.Map Fixture.logging "file") = ∅).
Proof.
  apply (Map_copies_string_keyed_entries Fixture.logging "file"
           [(VString "path", VString "/var/log/pg.log"); (VString "verbose", VBool true)]).
  - reflexivity.
  - simpl. apply NoDup_cons. split.
    + intros H. apply elem_of_cons in H. destruct H as [H|H]; [discriminate H|inversion H].
    + apply NoDup_cons. split; [intros H; inversion H|apply NoDup_nil_2].
Defined.

(** X13: the order in which [Map] visits the entries of the raw map does
    not matter: two raw maps with the same entries give the same result. *)
Theorem Map_does_not_depend_on_the_visiting_order
    (c c' : gmap string value) (name : string) (entries entries' : list (value * value))
    (Hraw : c !! name = Some (VMap entries))
    (Hraw' : c' !! name = Some (VMap entries'))
    (Hperm : entries ≡ₚ entries')
    (Hkeys : NoDup (entries.*1)) :
  ConfigMap.Map c name = ConfigMap.Map c' name.
Proof.
  assert (Hkeys' : NoDup (entries'.*1)) by (rewrite <- Hperm; exact Hkeys).
  destruct (Map_copies_string_keyed_entries c name entries Hraw Hkeys) as (Hok & Hl & Hf).
  destruct (Map_copies_string_keyed_entries c' name entries' Hraw' Hkeys')
    as (Hok' & Hl' & Hf').
  destruct (ConfigMap.Map c name) as [m b], (ConfigMap.Map c' name) as [m' b'].
  simpl in *.
  assert (Hb : b = b').
  { destruct b, b'; try reflexivity.
    - assert (Hall : Forall (fun e => exists key, fst e = VString key) entries')
        by (rewrite <- Hperm; apply Hok; reflexivity).
      apply Hok' in Hall. discriminate Hall.
    - assert (Hall : Forall (fun e => exists key, fst e = VString key) entries)
        by (rewrite Hperm; apply Hok'; reflexivity).
      apply Hok in Hall. discriminate Hall. }
  subst b'. f_equal. destruct b.
  - apply map_eq. intros k. apply option_eq. intros v.
    rewrite (Hl eq_refl k v), (Hl' eq_refl k v), Hperm. reflexivity.
  - rewrite (Hf eq_refl), (Hf' eq_refl). reflexivity.
Qed.

Lemma Map_does_not_depend_on_the_visiting_order_witness :
  ConfigMap.Map Fixture.logging "file"
  = ConfigMap.Map
      (<["file" := VMap [(VString "verbose", VBool true);
                         (VString "path", VString "/var/log/pg.log")]]> ∅)
      "file".
Proof.
  apply (Map_does_not_depend_on_the_visiting_order Fixture.logging _ "file"
           [(VString "path", VString "/var/log/pg.log"); (VString "verbose", VBool true)]
           [(VString "verbose", VBool true); (VString "path", VString "/var/log/pg.log")]).
  - reflexivity.
  - reflexivity.
  - apply Permutation_swap.
  - simpl. apply NoDup_cons. split.
    + intros H. apply elem_of_cons in H. destruct H as [H|H]; [discriminate H|inversion H].
    + apply NoDup_cons. split; [intros H; inversion H|apply NoDup_nil_2].
Defined.

(** X14: reading a section: for a section obtained by [Map], [String] and
    [Bool] report the entry of a key when its value has the type asked
    for, and report a missing value otherwise; a key without an entry, or
    with an entry of the other type, gives the default of
    [StringDefault] and [BoolDefault]. *)
Theorem section_getters
    (c : gmap string value) (name : string) (entries : list (value * value))
    (Hraw : c !! name = Some (VMap entries))
    (Hkeys : NoDup (entries.*1))
    (Hok : snd (ConfigMap.Map c name) = true) (k : string) :
  let m := fst (ConfigMap.Map c name) in
  (forall v, (VString k, v) ∈ entries ->
     ConfigMap.String m k
     = match v with VString s => (s, true) | _ => (EmptyString, false) end
     /\ ConfigMap.Bool m k
        = match v with VBool b => (b, true) | _ => (false, false) end
     /\ (forall d, ConfigMap.StringDefault m k d
                   = match v with VString s => s | _ => d end)
     /\ (forall d, ConfigMap.BoolDefault m k d
                   = match v with VBool b => b | _ => d end))
  /\ ((forall v, (VString k, v) ∉ entries) ->
      forall ds db, ConfigMap.StringDefault m k ds = ds /\ ConfigMap.BoolDefault m k db = db).
Proof.
  destruct (Map_copies_string_keyed_entries c name entries Hraw Hkeys) as (_ & Hl & _).
  specialize (Hl Hok k). simpl. split.
  - intros v Hin. apply Hl in Hin.
    unfold ConfigMap.StringDefault, ConfigMap.BoolDefault, ConfigMap.String, ConfigMap.Bool.
    rewrite Hin. destruct v; auto.
  - intros Hno ds db.
    unfold ConfigMap.StringDefault, ConfigMap.BoolDefault, ConfigMap.String, ConfigMap.Bool.
    destruct (fst (ConfigMap.Map c name) !! k) as [v|] eqn:Hv; [|auto].
    exfalso. eapply Hno. apply Hl. reflexivity.
Qed.

Lemma section_getters_witness :
  let m := fst (ConfigMap.Map Fixture.logging "file") in
  (forall v, (VString "verbose", v)
             ∈ [(VString "path", VString "/var/log/pg.log");
                (VString "verbose", VBool true)] ->
     ConfigMap.String m "verbose"
     = match v with VString s => (s, true) | _ => (EmptyString, false) end
     /\ ConfigMap.Bool m "verbose"
        = match v with VBool b => (b, true) | _ => (false, false) end
     /\ (forall d, ConfigMap.StringDefault m "verbose" d
                   = match v with VString s => s | _ => d end)
     /\ (forall d, ConfigMap.BoolDefault m "verbose" d
                   = match v with VBool b => b | _ => d end))
  /\ ((forall v, (VString "verbose", v)
                 ∉ [(VString "path", VString "/var/log/pg.log");
                    (VString "verbose", VBool true)]) ->
      forall ds db,
        ConfigMap.StringDefault m "verbose" ds = ds
        /\ ConfigMap.BoolDefault m "verbose" db = db).
Proof.
  apply (section_getters Fixture.logging "file"
           [(VString "path", VString "/var/log/pg.log"); (VString "verbose", VBool true)]).
  - reflexivity.
  - simpl. apply NoDup_cons. split.
    + intros H. apply elem_of_cons in H. destruct H as [H|H]; [discriminate H|inversion H].
    + apply NoDup_cons. split; [intros H; inversion H|apply NoDup_nil_2].
  - reflexivity.
Defined.

(** ** Binding the listeners *)

Lemma resolveListeners_range_binds (visits : list (string * option nat))
    (h : gmap nat ListenerConfig.t) :
  NoDup (visits.*2) ->
  (forall bind o, (bind, o) ∈ visits -> exists p cfg, o = Some p /\ h !! p = Some cfg) ->
  exists h',
    Config.resolveListeners_range visits h = Some h'
    /\ (forall bind p, (bind, Some p) ∈ visits ->
          h' !! p = ListenerConfig.set_Bind bind <$> h !! p)
    /\ (forall p, (forall bind, (bind, Some p) ∉ visits) -> h' !! p = h !! p).
Proof.
  revert h. induction visits as [|[b o] visits IH]; intros h Hnd Hall; simpl.
  - exists h. split; [reflexivity|]. split; [|auto].
    intros bind p Hin. inversion Hin.
  - simpl in Hnd. apply NoDup_cons in Hnd. destruct Hnd as [Hfresh Hnd].
    destruct (Hall b o) as (p & cfg & -> & Hp); [apply elem_of_cons; auto|].
    rewrite Hp.
    assert (Hother : forall bind, (bind, Some p) ∉ visits).
    { intros bind Hin. apply Hfresh.
      apply list_elem_of_fmap. exists (bind, Some p). auto. }
    destruct (IH (<[p := ListenerConfig.set_Bind b cfg]> h) Hnd) as (h' & Hrun & Hset & Hkeep).
    { intros bind o Hin.
      destruct (Hall bind o) as (q & cfg' & -> & Hq); [apply elem_of_cons; auto|].
      exists q. destruct (decide (p = q)) as [->|Hne].
      - exfalso. eapply Hother. exact Hin.
      - rewrite lookup_insert_ne by exact Hne. eauto. }
    exists h'. split; [exact Hrun|]. split.
    + intros bind q Hin. apply elem_of_cons in Hin. destruct Hin as [Heq|Hin].
      * inversion Heq; subst. rewrite (Hkeep _ Hother), lookup_insert_eq, Hp. reflexivity.
      * rewrite (Hset bind q Hin).
        destruct (decide (p = q)) as [->|Hne].
        -- exfalso. eapply Hother. exact Hin.
        -- rewrite lookup_insert_ne by exact Hne. reflexivity.
    + intros q Hno. rewrite Hkeep.
      * destruct (decide (p = q)) as [->|Hne].
        -- exfalso. apply (Hno b). apply elem_of_cons. auto.
        -- rewrite lookup_insert_ne by exact Hne. reflexivity.
      * intros bind Hin. apply (Hno bind). apply elem_of_cons. auto.
Qed.

Lemma visits_distinct (c : Config.t) (h : gmap nat ListenerConfig.t)
    (visits : list (string * option nat)) :
  visits ≡ₚ map_to_list (Config.Listeners c) ->
  (forall bind o, Config.Listeners c !! bind = Some o ->
     exists p cfg, o = Some p /\ h !! p = Some cfg) ->
  (forall b1 b2 p, Config.Listeners c !! b1 = Some (Some p) ->
     Config.Listeners c !! b2 = Some (Some p) -> b1 = b2) ->
  NoDup (visits.*2).
Proof.
  intros Hperm Halloc Hinj.
  apply NoDup_fmap_2_strong.
  - intros [b1 o1] [b2 o2] H1 H2 Heq. simpl in Heq. subst o2.
    rewrite Hperm in H1, H2.
    apply elem_of_map_to_list in H1. apply elem_of_map_to_list in H2.
    destruct (Halloc b1 o1 H1) as (p & cfg & -> & _).
    rewrite (Hinj b1 b2 p H1 H2). reflexivity.
  - rewrite Hperm. apply NoDup_map_to_list.
Qed.

Lemma classic_listener (c : Config.t) (p : nat) :
  (exists bind, Config.Listeners c !! bind = Some (Some p))
  \/ (forall bind, Config.Listeners c !! bind <> Some (Some p)).
Proof.
  destruct (decide (Exists (fun e => snd e = Some p) (map_to_list (Config.Listeners c))))
    as [Hex|Hno].
  - left. apply Exists_exists in Hex. destruct Hex as ([bind o] & Hin & Ho).
    simpl in Ho. subst o. apply elem_of_map_to_list in Hin. eauto.
  - right. intros bind Hb. apply Hno. apply Exists_exists.
    exists (bind, Some p). split; [apply elem_of_map_to_list; exact Hb|reflexivity].
Qed.

Lemma resolveListeners_visits (c : Config.t) (h : gmap nat ListenerConfig.t)
    (visits : list (string * option nat)) :
  visits ≡ₚ map_to_list (Config.Listeners c) ->
  (forall bind o, Config.Listeners c !! bind = Some o ->
     exists p cfg, o = Some p /\ h !! p = Some cfg) ->
  (forall b1 b2 p, Config.Listeners c !! b1 = Some (Some p) ->
     Config.Listeners c !! b2 = Some (Some p) -> b1 = b2) ->
  exists h',
    Config.resolveListeners_range visits h = Some h'
    /\ (forall bind p, Config.Listeners c !! bind = Some (Some p) ->
          h' !! p = ListenerConfig.set_Bind bind <$> h !! p)
    /\ (forall p, (forall bind, Config.Listeners c !! bind <> Some (Some p)) ->
          h' !! p = h !! p).
Proof.
  intros Hvs Halloc Hinj.
  destruct (resolveListeners_range_binds visits h) as (h' & Hrun & Hset & Hkeep).
  - eapply visits_distinct; eauto.
  - intros bind o Hin. rewrite Hvs in Hin.
    apply elem_of_map_to_list in Hin. eauto.
  - exists h'. split; [exact Hrun|]. split.
    + intros bind p Hin. apply Hset. rewrite Hvs. apply elem_of_map_to_list. exact Hin.
    + intros p Hno. apply Hkeep. intros bind Hin. rewrite Hvs in Hin.
      apply elem_of_map_to_list in Hin. exact (Hno bind Hin).
Qed.

Lemma same_configurations (c : Config.t) (h h1 h2 : gmap nat ListenerConfig.t) :
  (forall bind p, Config.Listeners c !! bind = Some (Some p) ->
     h1 !! p = ListenerConfig.set_Bind bind <$> h !! p) ->
  (forall p, (forall bind, Config.Listeners c !! bind <> Some (Some p)) ->
     h1 !! p = h !! p) ->
  (forall bind p, Config.Listeners c !! bind = Some (Some p) ->
     h2 !! p = ListenerConfig.set_Bind bind <$> h !! p) ->
  (forall p, (forall bind, Config.Listeners c !! bind <> Some (Some p)) ->
     h2 !! p = h !! p) ->
  h1 = h2.
Proof.
  intros Hset1 Hkeep1 Hset2 Hkeep2. apply map_eq. intros p.
  destruct (classic_listener c p) as [[bind Hb]|Hno].
  - rewrite (Hset1 bind p Hb), (Hset2 bind p Hb). reflexivity.
  - rewrite (Hkeep1 p Hno), (Hkeep2 p Hno). reflexivity.
Qed.

(** X15: if every listener has a configuration of its own (no entry is
    nil, no configuration is shared by two bind addresses), then
    [resolveListeners] does not panic, returns nil, and whatever the order
    in which the map is visited it leaves every listener's configuration
    with [Bind] equal to its key and its other fields as they were, and
    leaves every other configuration alone. *)
Theorem resolveListeners_binds_every_listener
    (c : Config.t) (h : gmap nat ListenerConfig.t) (visits : list (string * option nat))
    (Hperm : visits ≡ₚ map_to_list (Config.Listeners c))
    (Halloc : forall bind o, Config.Listeners c !! bind = Some o ->
                exists p cfg, o = Some p /\ h !! p = Some cfg)
    (Hinj : forall b1 b2 p, Config.Listeners c !! b1 = Some (Some p) ->
              Config.Listeners c !! b2 = Some (Some p) -> b1 = b2) :
  exists h',
    Config.resolveListeners_range visits h = Some h'
    /\ Config.resolveListeners c h = Some (None, h')
    /\ (forall bind p, Config.Listeners c !! bind = Some (Some p) ->
          h' !! p = ListenerConfig.set_Bind bind <$> h !! p)
    /\ (forall p, (forall bind, Config.Listeners c !! bind <> Some (Some p)) ->
          h' !! p = h !! p).
Proof.
  destruct (resolveListeners_visits c h visits Hperm Halloc Hinj)
    as (h1 & Hrun1 & Hset1 & Hkeep1).
  destruct (resolveListeners_visits c h (map_to_list (Config.Listeners c))
              (reflexivity _) Halloc Hinj) as (h2 & Hrun2 & Hset2 & Hkeep2).
  rewrite (same_configurations c h h2 h1 Hset2 Hkeep2 Hset1 Hkeep1) in Hrun2.
  exists h1. unfold Config.resolveListeners. rewrite Hrun2. auto.
Qed.

Lemma two_listeners_allocated (bind : string) (o : option nat) :
  Config.Listeners Fixture.two_listeners !! bind = Some o ->
  exists p cfg, o = Some p /\ Fixture.two_configs !! p = Some cfg.
Proof.
  intros H. simpl in H.
  apply lookup_insert_Some in H. destruct H as [[_ <-]|[_ H]].
  - exists 0, Fixture.listener. split; reflexivity.
  - apply lookup_insert_Some in H. destruct H as [[_ <-]|[_ H]].
    + exists 1, Fixture.listener. split; reflexivity.
    + rewrite lookup_empty in H. discriminate H.
Defined.

Lemma two_listeners_distinct (b1 b2 : string) (p : nat) :
  Config.Listeners Fixture.two_listeners !! b1 = Some (Some p) ->
  Config.Listeners Fixture.two_listeners !! b2 = Some (Some p) ->
  b1 = b2.
Proof.
  intros H1 H2. simpl in H1, H2.
  apply lookup_insert_Some in H1. apply lookup_insert_Some in H2.
  destruct H1 as [[<- H1]|[Hn1 H1]], H2 as [[<- H2]|[Hn2 H2]].
  - reflexivity.
  - inversion H1; subst p.
    apply lookup_insert_Some in H2. destruct H2 as [[_ H2]|[_ H2]];
      [discriminate H2 | rewrite lookup_empty in H2; discriminate H2].
  - inversion H2; subst p.
    apply lookup_insert_Some in H1. destruct H1 as [[_ H1]|[_ H1]];
      [discriminate H1 | rewrite lookup_empty in H1; discriminate H1].
  - apply lookup_insert_Some in H1. apply lookup_insert_Some in H2.
    destruct H1 as [[<- _]|[_ H1]]; [|rewrite lookup_empty in H1; discriminate H1].
    destruct H2 as [[<- _]|[_ H2]]; [|rewrite lookup_empty in H2; discriminate H2].
    reflexivity.
Defined.

Lemma resolveListeners_binds_every_listener_witness :
  exists h',
    Config.resolveListeners_range
      (reverse (map_to_list (Config.Listeners Fixture.two_listeners)))
      Fixture.two_configs = Some h'
    /\ Config.resolveListeners Fixture.two_listeners Fixture.two_configs = Some (None, h')
    /\ (forall bind p,
          Config.Listeners Fixture.two_listeners !! bind = Some (Some p) ->
          h' !! p = ListenerConfig.set_Bind bind <$> Fixture.two_configs !! p)
    /\ (forall p,
          (forall bind, Config.Listeners Fixture.two_listeners !! bind <> Some (Some p)) ->
          h' !! p = Fixture.two_configs !! p).
Proof.
  apply (resolveListeners_binds_every_listener Fixture.two_listeners Fixture.two_configs
           (reverse (map_to_list (Config.Listeners Fixture.two_listeners)))).
  - apply reverse_Permutation.
  - exact two_listeners_allocated.
  - exact two_listeners_distinct.
Defined.

(** X16: under the same conditions [resolveListeners] is idempotent:
    running it on the configurations it has left changes nothing. *)
Theorem resolveListeners_idempotent
    (c : Config.t) (h h1 : gmap nat ListenerConfig.t) (r : option goerror)
    (Halloc : forall bind o, Config.Listeners c !! bind = Some o ->
                exists p cfg, o = Some p /\ h !! p = Some cfg)
    (Hinj : forall b1 b2 p, Config.Listeners c !! b1 = Some (Some p) ->
              Config.Listeners c !! b2 = Some (Some p) -> b1 = b2)
    (Hrun : Config.resolveListeners c h = Some (r, h1)) :
  r = None /\ Config.resolveListeners c h1 = Some (None, h1).
Proof.
  destruct (resolveListeners_visits c h (map_to_list (Config.Listeners c))
              (reflexivity _) Halloc Hinj) as (h' & Hrun1 & Hset1 & Hkeep1).
  unfold Config.resolveListeners in Hrun. rewrite Hrun1 in Hrun.
  inversion Hrun; subst r h'. split; [reflexivity|].
  assert (Halloc1 : forall bind o, Config.Listeners c !! bind = Some o ->
                      exists p cfg, o = Some p /\ h1 !! p = Some cfg).
  { intros bind o Hb. destruct (Halloc bind o Hb) as (p & cfg & -> & Hp).
    exists p, (ListenerConfig.set_Bind bind cfg). split; [reflexivity|].
    rewrite (Hset1 bind p Hb), Hp. reflexivity. }
  destruct (resolveListeners_visits c h1 (map_to_list (Config.Listeners c))
              (reflexivity _) Halloc1 Hinj) as (h2 & Hrun2 & Hset2 & Hkeep2).
  unfold Config.resolveListeners. rewrite Hrun2. do 2 f_equal.
  apply (same_configurations c h); auto.
  - intros bind p Hb. rewrite (Hset2 bind p Hb), (Hset1 bind p Hb).
    destruct (h !! p); reflexivity.
  - intros p Hno. rewrite (Hkeep2 p Hno). apply Hkeep1, Hno.
Qed.

Lemma resolveListeners_idempotent_witness :
  let bound : gmap nat ListenerConfig.t :=
    <[0 := ListenerConfig.set_Bind "0.0.0.0:5432" Fixture.listener]>
      (<[1 := ListenerConfig.set_Bind "0.0.0.0:5433" Fixture.listener]> ∅) in
  None = (None : option goerror)
  /\ Config.resolveListeners Fixture.two_listeners bound = Some (None, bound).
Proof.
  apply (resolveListeners_idempotent Fixture.two_listeners Fixture.two_configs).
  - exact two_listeners_allocated.
  - exact two_listeners_distinct.
  - reflexivity.
Defined.

Lemma resolveListeners_range_panics (visits : list (string * option nat))
    (h : gmap nat ListenerConfig.t) :
  (forall bind p, (bind, Some p) ∈ visits -> is_Some (h !! p)) ->
  Config.resolveListeners_range visits h = None
  <-> exists bind, (bind, None) ∈ visits.
Proof.
  revert h. induction visits as [|[b o] visits IH]; intros h Hall; simpl.
  - split; [discriminate|]. intros [bind H]. inversion H.
  - destruct o as [p|].
    + destruct (Hall b p) as [cfg Hp]; [apply elem_of_cons; auto|].
      rewrite Hp, IH.
      * split; intros [bind H]; exists bind.
        -- apply elem_of_cons. auto.
        -- apply elem_of_cons in H. destruct H as [H|H]; [discriminate H|exact H].
      * intros bind q Hin. apply lookup_insert_is_Some'.
        right. apply (Hall bind q). apply elem_of_cons. auto.
    + split; [|reflexivity]. intros _. exists b. apply elem_of_cons. auto.
Qed.

(** X17: a listener whose entry is nil makes [resolveListeners] panic, in
    whatever order the map is visited, and nothing else does: with every
    non-nil entry pointing to a configuration, the loop panics exactly
    when some bind address is mapped to nil. *)
Theorem resolveListeners_panics_on_nil_listener
    (c : Config.t) (h : gmap nat ListenerConfig.t) (visits : list (string * option nat))
    (Hperm : visits ≡ₚ map_to_list (Config.Listeners c))
    (Halloc : forall bind p, Config.Listeners c !! bind = Some (Some p) ->
                is_Some (h !! p)) :
  (Config.resolveListeners_range visits h = None
   <-> exists bind, Config.Listeners c !! bind = Some None)
  /\ (Config.resolveListeners c h = None
      <-> exists bind, Config.Listeners c !! bind = Some None).
Proof.
  assert (Hspec : forall vs, vs ≡ₚ map_to_list (Config.Listeners c) ->
            Config.resolveListeners_range vs h = None
            <-> exists bind, Config.Listeners c !! bind = Some None).
  { intros vs Hvs. rewrite resolveListeners_range_panics.
    - split; intros [bind H]; exists bind.
      + rewrite Hvs in H. apply elem_of_map_to_list in H. exact H.
      + rewrite Hvs. apply elem_of_map_to_list. exact H.
    - intros bind p Hin. rewrite Hvs in Hin.
      apply elem_of_map_to_list in Hin. eauto. }
  split; [exact (Hspec visits Hperm)|].
  rewrite <- (Hspec (map_to_list (Config.Listeners c)) (reflexivity _)).
  unfold Config.resolveListeners.
  destruct (Config.resolveListeners_range _ h); split; congruence.
Qed.

Lemma null_listener_allocated (bind : string) (p : nat) :
  Config.Listeners Fixture.null_listener !! bind = Some (Some p) ->
  is_Some ((∅ : gmap nat ListenerConfig.t) !! p).
Proof.
  intros H. simpl in H.
  apply lookup_insert_Some in H. destruct H as [[_ H]|[_ H]].
  - discriminate H.
  - rewrite lookup_empty in H. discriminate H.
Defined.

Lemma resolveListeners_panics_on_nil_listener_witness :
  (Config.resolveListeners_range (map_to_list (Config.Listeners Fixture.null_listener)) ∅
   = None
   <-> exists bind, Config.Listeners Fixture.null_listener !! bind = Some None)
  /\ (Config.resolveListeners Fixture.null_listener ∅ = None
      <-> exists bind, Config.Listeners Fixture.null_listener !! bind = Some None).
Proof.
  apply (resolveListeners_panics_on_nil_listener Fixture.null_listener ∅
           (map_to_list (Config.Listeners Fixture.null_listener))).
  - reflexivity.
  - exact null_listener_allocated.
Defined.
